(** * Pokemon-Blaze-Bot: the encounter-detection-and-response engine

    A shallow embedding of [PBObotMac.py] (the macOS GUI bot) and of
    [pbobotplus.py] (the earlier Windows script), and the properties of
    the detection loop, the watchdog, the name matcher, the calibration
    tool and the start-up path that are established about them.

    Conventions of the embedding:
    - Python [int] is [Z]; Python [float] clock readings, hold times and
      the similarity ratio are exact rationals [Q];
    - Python [str] is [string], read as a sequence of code points below
      256 (Latin-1);
    - [dict] is [gmap]; the [list] objects are [list];
    - the platform (window capture, clock, events, files, OCR) is an
      explicit input of each function, and every side effect of the
      worker thread is an [event] of its trace;
    - a call into Pillow, NumPy or OpenCV stands for the pixels it
      computes; [cv2.cvtColor] raises on an array without elements, as
      OpenCV does, and the exception ends the worker thread;
    - a call that has not returned on the events it was given is
      [None]. *)

From Stdlib Require Import ZArith QArith Lqa Lia Bool Ascii String.
From stdpp Require Import base option list list_numbers gmap strings.

Close Scope Q_scope.
Local Open Scope Z_scope.

(** ** Images *)

(** One RGB pixel, channel values in R, G, B order. *)
Definition pixel : Type := Z * Z * Z.

(** An image is a list of rows. *)
Definition image : Type := list (list pixel).

(** A window snapshot as Quartz delivers it: rows of four-channel
    pixels. *)
Definition rgba : Type := Z * Z * Z * Z.
Definition cgimage : Type := list (list rgba).

(** A capture region [(x, y, w, h)]. *)
Definition region : Type := Z * Z * Z * Z.

(** [Image.crop((x, y, x2, y2))]: the box is read off the source; what
    lies outside the source is [blank].  A box that is empty or
    inverted ([x2 <= x] or [y2 <= y]) gives an image without pixels. *)
Definition pil_getpixel {A} (blank : A) (img : list (list A)) (cx cy : Z) : A :=
  if (cx <? 0) || (cy <? 0) then blank
  else match img !! Z.to_nat cy with
       | None => blank
       | Some row => default blank (row !! Z.to_nat cx)
       end.

Definition pil_crop {A} (blank : A) (img : list (list A)) (x y x2 y2 : Z)
    : list (list A) :=
  (λ cy : Z, (λ cx : Z, pil_getpixel blank img cx cy) <$> seqZ x (x2 - x))
    <$> seqZ y (y2 - y).

(** [Image.convert("RGB")] drops the fourth channel. *)
Definition drop_alpha (p : rgba) : pixel :=
  let '(r, g, b, _) := p in (r, g, b).

Definition pil_convert_rgb (img : cgimage) : image :=
  (λ row : list rgba, drop_alpha <$> row) <$> img.

(** ** Python strings *)

Definition chars (s : string) : list ascii := list_ascii_of_string s.

(** [str.lower] on code points below 256. *)
Definition lower_char (c : ascii) : ascii :=
  let n := N_of_ascii c in
  if ((65 <=? n) && (n <=? 90) ||
      (192 <=? n) && (n <=? 222) && negb (n =? 215))%N
  then ascii_of_N (n + 32) else c.

Definition lower (s : string) : string :=
  string_of_list_ascii (lower_char <$> chars s).

(** [str.isspace] on one code point below 256: the characters that
    [str.strip] removes. *)
Definition py_isspace (c : ascii) : bool :=
  let n := N_of_ascii c in
  ((9 <=? n) && (n <=? 13) || (28 <=? n) && (n <=? 32) ||
   (n =? 133) || (n =? 160))%N.

Fixpoint lstrip_chars (l : list ascii) : list ascii :=
  match l with
  | [] => []
  | c :: l' => if py_isspace c then lstrip_chars l' else l
  end.

Definition rstrip_chars (l : list ascii) : list ascii :=
  rev (lstrip_chars (rev l)).

(** [str.strip()] *)
Definition strip (s : string) : string :=
  string_of_list_ascii (rstrip_chars (lstrip_chars (chars s))).

(** ** difflib.SequenceMatcher

    The standard-library matcher that [_is_similar] calls, with
    [isjunk=None] and [autojunk=True] as the call leaves them. *)
Module difflib.

(** A matching block [(i, j, k)]: [a[i:i+k] == b[j:j+k]]. *)
Definition Match : Type := Z * Z * Z.

(** [__chain_b]: for each element of [b] the increasing list of its
    indices; once [b] has 200 elements or more, elements occurring
    more than [n // 100 + 1] times are purged. *)
Definition index_b (b : list ascii) : gmap ascii (list Z) :=
  foldl (λ (b2j : gmap ascii (list Z)) '(i, elt),
           <[elt := default [] (b2j !! elt) ++ [Z.of_nat i]]> b2j)
        ∅ (imap (λ i elt, (i, elt)) b).

Definition chain_b (b : list ascii) : gmap ascii (list Z) :=
  let b2j := index_b b in
  let n := Z.of_nat (length b) in
  if 200 <=? n then
    let ntest := n / 100 + 1 in
    filter (λ kv, ¬ (ntest < Z.of_nat (length kv.2))) b2j
  else b2j.

(** The junk set of [b]; empty, as no [isjunk] is given. *)
Definition bjunk : gset ascii := ∅.
Definition isbjunk (c : ascii) : bool := bool_decide (c ∈ bjunk).

(** The inner [for j in b2j.get(a[i], nothing)] of
    [find_longest_match], with its [continue] and [break]. *)
Fixpoint scan_indices (js : list Z) (blo bhi i : Z) (j2len newj2len : gmap Z Z)
    (best : Match) : gmap Z Z * Match :=
  match js with
  | [] => (newj2len, best)
  | j :: js' =>
      if j <? blo then scan_indices js' blo bhi i j2len newj2len best
      else if bhi <=? j then (newj2len, best)
      else
        let k := default 0 (j2len !! (j - 1)) + 1 in
        let newj2len := <[j := k]> newj2len in
        let best := if best.2 <? k then (i - k + 1, j - k + 1, k) else best in
        scan_indices js' blo bhi i j2len newj2len best
  end.

(** One iteration of [for i in range(alo, ahi)]. *)
Definition scan_row (a : list ascii) (b2j : gmap ascii (list Z)) (blo bhi : Z)
    (acc : gmap Z Z * Match) (i : Z) : gmap Z Z * Match :=
  let js := match a !! Z.to_nat i with
            | Some ai => default [] (b2j !! ai)
            | None => []
            end in
  scan_indices js blo bhi i acc.1 ∅ acc.2.

(** [while besti > alo and bestj > blo and <side>(b[bestj-1]) and
    a[besti-1] == b[bestj-1]]: at most [besti - alo] rounds. *)
Fixpoint extend_left (rounds : nat) (a b : list ascii) (side : ascii → bool)
    (alo blo : Z) (m : Match) : Match :=
  match rounds with
  | O => m
  | S rounds' =>
      let '(besti, bestj, bestsize) := m in
      if (alo <? besti) && (blo <? bestj) then
        match a !! Z.to_nat (besti - 1), b !! Z.to_nat (bestj - 1) with
        | Some x, Some y =>
            if side y && bool_decide (x = y)
            then extend_left rounds' a b side alo blo (besti - 1, bestj - 1, bestsize + 1)
            else m
        | _, _ => m
        end
      else m
  end.

(** [while besti+bestsize < ahi and bestj+bestsize < bhi and
    <side>(b[bestj+bestsize]) and a[besti+bestsize] == b[bestj+bestsize]]. *)
Fixpoint extend_right (rounds : nat) (a b : list ascii) (side : ascii → bool)
    (ahi bhi : Z) (m : Match) : Match :=
  match rounds with
  | O => m
  | S rounds' =>
      let '(besti, bestj, bestsize) := m in
      if (besti + bestsize <? ahi) && (bestj + bestsize <? bhi) then
        match a !! Z.to_nat (besti + bestsize), b !! Z.to_nat (bestj + bestsize) with
        | Some x, Some y =>
            if side y && bool_decide (x = y)
            then extend_right rounds' a b side ahi bhi (besti, bestj, bestsize + 1)
            else m
        | _, _ => m
        end
      else m
  end.

Definition extend (a b : list ascii) (side : ascii → bool)
    (alo ahi blo bhi : Z) (m : Match) : Match :=
  let m1 := extend_left (Z.to_nat (m.1.1 - alo)) a b side alo blo m in
  extend_right (Z.to_nat (ahi - (m1.1.1 + m1.2))) a b side ahi bhi m1.

Definition find_longest_match (a b : list ascii) (b2j : gmap ascii (list Z))
    (alo ahi blo bhi : Z) : Match :=
  let scanned := foldl (scan_row a b2j blo bhi) (∅, (alo, blo, 0))
                       (seqZ alo (ahi - alo)) in
  let m := extend a b (λ c, negb (isbjunk c)) alo ahi blo bhi scanned.2 in
  extend a b isbjunk alo ahi blo bhi m.

(** The [while queue] loop of [get_matching_blocks]; [queue.pop()]
    takes the entry appended last.  [None] when [rounds] iterations
    did not empty the queue. *)
Fixpoint queue_loop (rounds : nat) (a b : list ascii) (b2j : gmap ascii (list Z))
    (queue : list (Z * Z * Z * Z)) (matching_blocks : list Match)
    : option (list Match) :=
  match queue with
  | [] => Some matching_blocks
  | (alo, ahi, blo, bhi) :: queue' =>
      match rounds with
      | O => None
      | S rounds' =>
          let x := find_longest_match a b b2j alo ahi blo bhi in
          let '(i, j, k) := x in
          if k =? 0 then queue_loop rounds' a b b2j queue' matching_blocks
          else
            let q1 := if (alo <? i) && (blo <? j)
                      then (alo, i, blo, j) :: queue' else queue' in
            let q2 := if (i + k <? ahi) && (j + k <? bhi)
                      then (i + k, ahi, j + k, bhi) :: q1 else q1 in
            queue_loop rounds' a b b2j q2 (matching_blocks ++ [x])
      end
  end.

(** Tuple order of [matching_blocks.sort()]. *)
Definition Match_leb (x y : Match) : bool :=
  let '(i1, j1, k1) := x in
  let '(i2, j2, k2) := y in
  (i1 <? i2) || (i1 =? i2) && ((j1 <? j2) || (j1 =? j2) && (k1 <=? k2)).

Fixpoint insert_sorted (x : Match) (l : list Match) : list Match :=
  match l with
  | [] => [x]
  | y :: l' => if Match_leb x y then x :: l else y :: insert_sorted x l'
  end.

Definition sort (l : list Match) : list Match := foldr insert_sorted [] l.

(** The pass that merges adjacent blocks. *)
Definition collapse_step (acc : Match * list Match) (x : Match)
    : Match * list Match :=
  let '((i1, j1, k1), non_adjacent) := acc in
  let '(i2, j2, k2) := x in
  if (i1 + k1 =? i2) && (j1 + k1 =? j2) then ((i1, j1, k1 + k2), non_adjacent)
  else ((i2, j2, k2),
        if k1 =? 0 then non_adjacent else non_adjacent ++ [(i1, j1, k1)]).

Definition collapse (l : list Match) : list Match :=
  let '((i1, j1, k1), non_adjacent) := foldl collapse_step ((0, 0, 0), []) l in
  if k1 =? 0 then non_adjacent else non_adjacent ++ [(i1, j1, k1)].

Definition get_matching_blocks (a b : list ascii) : list Match :=
  let la := Z.of_nat (length a) in
  let lb := Z.of_nat (length b) in
  let found := default [] (queue_loop (2 * length a + 1) a b (chain_b b)
                                      [(0, la, 0, lb)] []) in
  collapse (sort found) ++ [(la, lb, 0)].

(** [_calculate_ratio] *)
Definition calculate_ratio (matches length : Z) : Q :=
  if length =? 0 then 1%Q else Qmake (2 * matches) (Z.to_pos length).

Definition ratio (a b : string) : Q :=
  let matches := foldr Z.add 0 ((λ t : Match, t.2) <$> get_matching_blocks (chars a) (chars b)) in
  calculate_ratio matches (Z.of_nat (length (chars a)) + Z.of_nat (length (chars b))).

End difflib.

(** ** Values shared by both programs *)

(** What a call leaves behind: a value, or the exception it raises. *)
Inductive exn :=
| ValueError
| IndexError
| JSONDecodeError
| cv2_error           (* cv2.error *)
| TclError            (* tkinter.TclError *)
| Exception.          (* Exception("Window not found: ...") *)

Inductive outcome (A : Type) :=
| Returned (a : A)
| Raised (e : exn).
Arguments Returned {A} a.
Arguments Raised {A} e.

(** The values a configuration file holds. *)
#[local] Set Warnings "-register-all".
Inductive json :=
| JInt (n : Z)
| JStr (s : string)
| JList (l : list json).

(** The texts the programs log or print; the formatted arguments are the
    constructor's. *)
Inductive message :=
| Msg_thread_started
| Msg_encountered (encounter_count : Z)
| Msg_encountered_plain
| Msg_name (pokemon_name : string)
| Msg_target_stopping (pokemon_name : string)
| Msg_target_skipping (pokemon_name : string)
| Msg_defeating (move_choice : string)
| Msg_defeating_plain
| Msg_check_window
| Msg_no_encounters_beep
| Msg_thread_stopping
| Msg_unknown_key (key_str : string)
| Msg_pixel_color (x y r g b : Z)
| Msg_starting_script
| Msg_find_window_first
| Msg_invalid_integer
| Msg_starting_bot
| Msg_could_not_capture
| Msg_calibrated (box x y w h : Z).

(** Where the worker thread reads the clock. *)
Inductive clock_site := At_start | At_encounter | At_watchdog.

Inductive wm := WM_KEYDOWN | WM_KEYUP.

(** The side effects, in program order. *)
Inductive event :=
| log_put (m : message)                       (* log_queue.put(("LOG", m)) *)
| stdout (m : message)                        (* print(m) *)
| afplay                                      (* subprocess.Popen(["afplay", ...]) *)
| CGEventPost (key_code : Z) (key_down : bool)
| PostMessage (msg : wm) (key_code lParam : Z)
| sleep (seconds : Q)                         (* time.sleep *)
| time_time (site : clock_site) (t : Q)       (* time.time() returned t *)
| reddish_checked (active : bool)             (* the encounter check returned *)
| save_config (data : gmap string json)       (* the configuration file written *)
| calib_win_destroy.

(** The OCR stack: OpenCV's luminance of one pixel and Tesseract's
    single-line recognition of a binarised image. *)
Class Recognizer := {
  rgb2gray : pixel → Z;
  image_to_string : list (list Z) → string
}.

(** An array without elements: no row, or rows of no pixel
    ([_src.empty()] in OpenCV). *)
Definition np_empty {A} (np_img : list (list A)) : bool :=
  forallb (λ row : list A, match row with [] => true | _ => false end) np_img.

(** [cv2.cvtColor(src, code)]: the conversion [code] of each pixel;
    OpenCV asserts [!_src.empty()] and raises [cv2.error] otherwise. *)
Definition cvtColor {A B} (code : A → B) (src : list (list A))
    : outcome (list (list B)) :=
  if np_empty src then Raised cv2_error
  else Returned ((λ row : list A, code <$> row) <$> src).

(** [cv2.cvtColor(np_img, cv2.COLOR_RGB2GRAY)] *)
Definition cvtColor_RGB2GRAY `{Recognizer} (img : image) : outcome (list (list Z)) :=
  cvtColor rgb2gray img.

(** [cv2.threshold(gray, thresh, maxval, cv2.THRESH_BINARY)] *)
Definition threshold_binary (gray : list (list Z)) (thresh maxval : Z) : list (list Z) :=
  (λ row : list Z, (λ v : Z, if thresh <? v then maxval else 0) <$> row) <$> gray.

(** [SequenceMatcher(None, name.lower(), target.lower()).ratio() >= threshold] *)
Definition is_similar (name target : string) (threshold : Q) : bool :=
  Qle_bool threshold (difflib.ratio (lower name) (lower target)).

Definition default_threshold : Q := 7 # 10.

(** ** PBObotMac.py *)
Module Mac.

(** *** Configuration *)

(** The state of [CONFIG_FILENAME] on disk: absent, or present with
    what [json.load] makes of it ([None] when it does not parse). *)
Inductive config_file :=
| Absent
| Present (parsed : option (gmap string json)).

Definition load_config (file : config_file) : outcome (gmap string json) :=
  match file with
  | Absent => Returned ∅
  | Present (Some data) => Returned data
  | Present None => Raised JSONDecodeError
  end.

(** [d[key] = value] when [key not in d]. *)
Definition setdefault (key : string) (value : json) (d : gmap string json)
    : gmap string json :=
  match d !! key with
  | Some _ => d
  | None => <[key := value]> d
  end.

(** The head of [BotGUI.__init__]: the configuration is loaded and
    the four fields get their defaults. *)
Definition init_config_data (file : config_file) : outcome (gmap string json) :=
  match load_config file with
  | Raised e => Raised e
  | Returned config_data =>
      let config_data :=
        setdefault "pokeball_region"
          (JList [JInt 1380; JInt 330; JInt 60; JInt 20]) config_data in
      let config_data :=
        setdefault "name_region"
          (JList [JInt 1224; JInt 339; JInt 145; JInt 20]) config_data in
      let config_data :=
        setdefault "target_pokemons"
          (JList [JStr "Electivire"; JStr "Xurkitree"; JStr "Garchomp"]) config_data in
      let config_data := setdefault "preferred_move" (JStr "1") config_data in
      Returned config_data
  end.

(** *** Capture and detection *)

(** [full_image_ref] is what [CGWindowListCreateImage] gave: [None]
    when the window is minimised or permission is missing. *)
Definition capture_window_mac (full_image_ref : option cgimage)
    (region : option region) : option image :=
  match full_image_ref with
  | None => None
  | Some pil_img =>
      let pil_img :=
        match region with
        | Some (x, y, w, h) =>
            let x2 := x + w in
            let y2 := y + h in
            pil_crop (0, 0, 0, 0) pil_img x y x2 y2
        | None => pil_img
        end in
      Some (pil_convert_rgb pil_img)
  end.

(** [cv2.cvtColor(np_img, cv2.COLOR_RGB2BGR)] *)
Definition cvtColor_RGB2BGR (np_img : image) : outcome image :=
  cvtColor (λ p : pixel, (p.2, p.1.2, p.1.1)) np_img.

(** [cv2.inRange(src, lower, upper)]: 255 where every channel lies
    between its two bounds, bounds included, else 0. *)
Definition inRange (src : image) (lower upper : pixel) : list (list Z) :=
  (λ row : list pixel,
     (λ p : pixel,
        if (lower.1.1 <=? p.1.1) && (p.1.1 <=? upper.1.1) &&
           (lower.1.2 <=? p.1.2) && (p.1.2 <=? upper.1.2) &&
           (lower.2 <=? p.2) && (p.2 <=? upper.2)
        then 255 else 0) <$> row) <$> src.

(** [np.any(mask > 0)] *)
Definition np_any_positive (mask : list (list Z)) : bool :=
  existsb (existsb (λ v, 0 <? v)) mask.

Definition default_lower_thresh : pixel := (150, 0, 0).
Definition default_upper_thresh : pixel := (255, 100, 100).

Definition is_reddish_in_region (full_image_ref : option cgimage) (region : region)
    (lower_thresh upper_thresh : pixel) : outcome bool :=
  match capture_window_mac full_image_ref (Some region) with
  | None => Returned false
  | Some region_img =>
      match cvtColor_RGB2BGR region_img with
      | Raised e => Raised e
      | Returned np_img_bgr =>
          let lower := (lower_thresh.2, lower_thresh.1.2, lower_thresh.1.1) in
          let upper := (upper_thresh.2, upper_thresh.1.2, upper_thresh.1.1) in
          let mask := inRange np_img_bgr lower upper in
          Returned (np_any_positive mask)
      end
  end.

Definition get_pokemon_name `{Recognizer} (full_image_ref : option cgimage)
    (region : region) : outcome string :=
  match capture_window_mac full_image_ref (Some region) with
  | None => Returned ""
  | Some im =>
      match cvtColor_RGB2GRAY im with
      | Raised e => Raised e
      | Returned gray =>
          let binary := threshold_binary gray 150 255 in
          let text := image_to_string binary in
          Returned (strip text)
      end
  end.

(** *** Keys and movement *)

Definition MAC_KEYCODES : gmap string Z :=
  list_to_map [("left_arrow", 123); ("right_arrow", 124); ("down_arrow", 125);
               ("up_arrow", 126); ("1", 18); ("2", 19); ("3", 20); ("4", 21);
               ("r", 15)].

Definition press_key_mac (key_str : string) (hold_time : Q) : list event :=
  match MAC_KEYCODES !! key_str with
  | None => [stdout (Msg_unknown_key key_str)]
  | Some key_code =>
      [CGEventPost key_code true; sleep hold_time; CGEventPost key_code false]
  end.

Definition default_hold_time : Q := 25 # 100.

(** [last_dir] is the content of the one-cell list the loop owns; the
    new content is returned with the events. *)
Definition move_in_bushes (last_dir : Z) : list event * Z :=
  if last_dir =? 0 then (press_key_mac "right_arrow" default_hold_time, 1)
  else (press_key_mac "left_arrow" default_hold_time, 0).

(** *** The worker thread *)

Record BotThread := {
  pokeball_region : region;
  name_region : region;
  target_pokemons : list string;
  move_choice : string
}.

Definition move_map : gmap string string :=
  list_to_map [("1", "1"); ("2", "2"); ("3", "3"); ("4", "4"); ("r", "r")].

Definition defeat_wild_pokemon (self : BotThread) : list event :=
  let key_str := default "1" (move_map !! move_choice self) in
  press_key_mac key_str (1 # 10).

Definition _is_similar (name target : string) : bool :=
  is_similar name target default_threshold.

Definition _log (m : message) : list event := [log_put m].
Definition _beep (m : message) : list event := [afplay; log_put m].

(** The local variables of [run]. *)
Record locals := {
  encounter_count : Z;
  last_encounter_time : Q;
  next_check_time : Q;
  last_dir : Z
}.

(** What one pass of the [while] sees of the world: the two flags,
    the window at the two captures, the clock at its two readings. *)
Record tick_env := {
  stop_is_set : bool;
  pause_is_set : bool;
  window_at_check : option cgimage;
  clock_at_encounter : Q;
  window_at_name : option cgimage;
  clock_at_watchdog : Q
}.

Inductive control :=
| Next               (* the pass ran to its end, or hit [continue] *)
| Break              (* [break] on a target *)
| LoopExit           (* the [while] condition failed *)
| Raises (e : exn).  (* an exception left the pass *)

(** The watchdog, the last statements of a pass. *)
Definition watchdog (st : locals) (now : Q) : locals * list event :=
  if Qle_bool (next_check_time st) now then
    let alert :=
      if Qle_bool 10 (now - last_encounter_time st)
      then _log Msg_check_window ++ _beep Msg_no_encounters_beep
      else [] in
    ({| encounter_count := encounter_count st;
        last_encounter_time := last_encounter_time st;
        next_check_time := now + 10;
        last_dir := last_dir st |}, alert)
  else (st, []).

(** One pass of the [while] of [run]: how it ends, the locals then,
    and the events up to there. *)
Definition tick `{Recognizer} (self : BotThread) (st : locals) (env : tick_env)
    : control * locals * list event :=
  if stop_is_set env then (LoopExit, st, [])
  else if pause_is_set env then (Next, st, [sleep (2 # 10)])
  else
    let '(moved, d) := move_in_bushes (last_dir st) in
    let st := {| encounter_count := encounter_count st;
                 last_encounter_time := last_encounter_time st;
                 next_check_time := next_check_time st;
                 last_dir := d |} in
    match is_reddish_in_region (window_at_check env) (pokeball_region self)
                               default_lower_thresh default_upper_thresh with
    | Raised e => (Raises e, st, moved)
    | Returned active =>
        let ev := moved ++ [reddish_checked active] in
        let tail (st : locals) (ev : list event) :=
          let now := clock_at_watchdog env in
          let '(st, barked) := watchdog st now in
          (Next, st, ev ++ [time_time At_watchdog now] ++ barked ++ [sleep (1 # 10)]) in
        if active then
          let count := encounter_count st + 1 in
          let st := {| encounter_count := count;
                       last_encounter_time := clock_at_encounter env;
                       next_check_time := clock_at_encounter env + 10;
                       last_dir := d |} in
          let ev := ev ++ [time_time At_encounter (clock_at_encounter env)]
                       ++ _log (Msg_encountered count) in
          match get_pokemon_name (window_at_name env) (name_region self) with
          | Raised e => (Raises e, st, ev)
          | Returned pokemon_name =>
              let ev := ev ++ _log (Msg_name pokemon_name) in
              if existsb (_is_similar pokemon_name) (target_pokemons self) then
                (Break, st, ev ++ _beep (Msg_target_stopping pokemon_name))
              else
                tail st (ev ++ _log (Msg_defeating (move_choice self))
                            ++ defeat_wild_pokemon self ++ [sleep (1 # 10)])
          end
        else tail st ev
    end.

(** How far the loop got on the passes it was given.  An exception
    that leaves a pass leaves [run]: the thread ends there, without the
    closing log line. *)
Inductive status := Running | Alerted | Stopped | Died (e : exn).

Fixpoint run_ticks `{Recognizer} (self : BotThread) (st : locals)
    (envs : list tick_env) : status * locals * list event :=
  match envs with
  | [] => (Running, st, [])
  | env :: envs' =>
      match tick self st env with
      | (Next, st', ev) =>
          let '(r, st'', ev') := run_ticks self st' envs' in (r, st'', ev ++ ev')
      | (Break, st', ev) => (Alerted, st', ev ++ _log Msg_thread_stopping)
      | (LoopExit, st', ev) => (Stopped, st', ev ++ _log Msg_thread_stopping)
      | (Raises e, st', ev) => (Died e, st', ev)
      end
  end.

(** The locals as [run] sets them before the loop, the clock reading
    [t0]. *)
Definition initial (t0 : Q) : locals :=
  {| encounter_count := 0;
     last_encounter_time := t0;
     next_check_time := t0 + 10;
     last_dir := 0 |}.

Definition run `{Recognizer} (self : BotThread) (t0 : Q) (envs : list tick_env)
    : status * locals * list event :=
  let '(r, st, ev) := run_ticks self (initial t0) envs in
  (r, st, _log Msg_thread_started ++ [time_time At_start t0] ++ ev).

(** *** Calibration *)

(** [sorted] on integers. *)
Fixpoint insert_asc (x : Z) (l : list Z) : list Z :=
  match l with
  | [] => [x]
  | y :: l' => if x <? y then x :: l else y :: insert_asc x l'
  end.

Definition sorted (l : list Z) : list Z := foldr insert_asc [] l.

(** The variables the three pointer handlers of
    [calibrate_two_regions] close over. *)
Record calibration := {
  start_x : Z;
  start_y : Z;
  current_rect_id : option Z;
  result : list (option region);
  region_index : Z;
  destroyed : bool
}.

Definition calibration_start : calibration :=
  {| start_x := 0; start_y := 0; current_rect_id := None;
     result := [None; None]; region_index := 0; destroyed := false |}.

(** [rect_id] is the item id [canvas.create_rectangle] returns. *)
Definition on_button_press (st : calibration) (event_x event_y rect_id : Z)
    : calibration :=
  {| start_x := event_x; start_y := event_y; current_rect_id := Some rect_id;
     result := result st; region_index := region_index st;
     destroyed := destroyed st |}.

(** The handler only redraws the rubber band. *)
Definition on_move_press (st : calibration) (event_x event_y : Z) : calibration := st.

Definition on_button_release (st : calibration) (event_x event_y : Z)
    : outcome (calibration * list event) :=
  let end_x := event_x in
  let end_y := event_y in
  match sorted [start_x st; end_x], sorted [start_y st; end_y] with
  | [x1; x2], [y1; y2] =>
      let w := x2 - x1 in
      let h := y2 - y1 in
      let idx := region_index st in
      if (0 <=? idx) && (idx <? Z.of_nat (length (result st))) then
        let result' := <[Z.to_nat idx := Some (x1, y1, w, h)]> (result st) in
        let ev := [log_put (Msg_calibrated (idx + 1) x1 y1 w h)] in
        if idx =? 1 then
          Returned ({| start_x := start_x st; start_y := start_y st;
                       current_rect_id := None; result := result';
                       region_index := idx; destroyed := true |},
                    ev ++ [calib_win_destroy])
        else
          Returned ({| start_x := start_x st; start_y := start_y st;
                       current_rect_id := None; result := result';
                       region_index := idx + 1; destroyed := destroyed st |},
                    ev)
      else Raised IndexError
  | _, _ => Raised ValueError
  end.

(** The pointer events the canvas is bound to; a press carries the id
    of the rectangle the canvas creates for it. *)
Inductive pointer :=
| ButtonPress (x y rect_id : Z)
| Motion (x y : Z)
| ButtonRelease (x y : Z).

(** What the event loop dispatches while [calibrate_two_regions] is
    in its [mainloop]: a pointer event on the canvas, or the
    destruction of the root window by a handler of the panel. *)
Inductive dispatched :=
| Canvas (p : pointer)
| Root_destroyed.

(** [calib_win.mainloop()].  Tkinter has one event loop for the whole
    application: the call dispatches events until the root window is
    destroyed, [calib_win.destroy()] does not end it, and the program
    never calls [quit].  While the calibration window exists its
    handlers run on the pointer events; an exception raised by a
    handler is reported by Tkinter and the loop goes on.  The result is
    [None] when the events run out with the root window still there:
    the call has not returned. *)
Fixpoint mainloop (st : calibration) (events : list dispatched)
    : option (calibration * list event) :=
  match events with
  | [] => None
  | Root_destroyed :: _ => Some (st, [])
  | Canvas p :: rest =>
      if destroyed st then mainloop st rest
      else
        match p with
        | ButtonPress x y rect_id => mainloop (on_button_press st x y rect_id) rest
        | Motion x y => mainloop (on_move_press st x y) rest
        | ButtonRelease x y =>
            match on_button_release st x y with
            | Raised _ => mainloop st rest
            | Returned (st', ev) =>
                match mainloop st' rest with
                | None => None
                | Some (st'', ev') => Some (st'', ev ++ ev')
                end
            end
        end
  end.

(** The two boxes, the events, and whether the root window still
    exists when the call returns; [None] when it has not returned. *)
Definition calibrate_two_regions (full_image_ref : option cgimage)
    (events : list dispatched)
    : option (option region * option region * list event * bool) :=
  match capture_window_mac full_image_ref None with
  | None => Some (None, None, [log_put Msg_could_not_capture], true)
  | Some full_img_pil =>
      match mainloop calibration_start events with
      | None => None
      | Some (st, ev) =>
          Some (default None (result st !! 0%nat),
                default None (result st !! 1%nat), ev, false)
      end
  end.

(** *** The start button *)
Module gui.

(** The fields of [BotGUI] that [start_bot] reads or writes; the
    eight region entries hold the text typed into them. *)
Record BotGUI := {
  config_data : gmap string json;
  window_id : option Z;
  window_bounds : option (gmap string Z);
  pb_x : string; pb_y : string; pb_w : string; pb_h : string;
  nm_x : string; nm_y : string; nm_w : string; nm_h : string;
  target_pokemons : list string;
  move_choice_var : string;
  stop_event : bool;
  pause_event : bool
}.

(** The blanks [int] skips around a literal. *)
Definition int_isspace (c : ascii) : bool :=
  let n := N_of_ascii c in
  ((9 <=? n) && (n <=? 13) || (n =? 32) || (n =? 133) || (n =? 160))%N.

Definition digit_value (c : ascii) : option Z :=
  let n := N_of_ascii c in
  if ((48 <=? n) && (n <=? 57))%N then Some (Z.of_N n - 48) else None.

(** Decimal digits, single underscores allowed between two digits. *)
Fixpoint parse_digits (l : list ascii) (acc : Z) (after_digit : bool) : option Z :=
  match l with
  | [] => if after_digit then Some acc else None
  | c :: l' =>
      match digit_value c with
      | Some d => parse_digits l' (10 * acc + d) true
      | None =>
          if bool_decide (c = "_"%char) && after_digit
          then parse_digits l' acc false
          else None
      end
  end.

Fixpoint lstrip_int (l : list ascii) : list ascii :=
  match l with
  | [] => []
  | c :: l' => if int_isspace c then lstrip_int l' else l
  end.

(** [int(s)] for the text of an entry: blanks around an optionally
    signed decimal literal.  The interpreter's cap on the number of
    digits is left out. *)
Definition int (s : string) : outcome Z :=
  let body := rev (lstrip_int (rev (lstrip_int (chars s)))) in
  let parsed :=
    match body with
    | "-"%char :: digits => Z.opp <$> parse_digits digits 0 false
    | "+"%char :: digits => parse_digits digits 0 false
    | _ => parse_digits body 0 false
    end in
  match parsed with
  | Some n => Returned n
  | None => Raised ValueError
  end.

(** The tuple of four [int(...)] calls, left to right. *)
Definition int4 (a b c d : string) : outcome region :=
  match int a with Raised e => Raised e | Returned x =>
  match int b with Raised e => Raised e | Returned y =>
  match int c with Raised e => Raised e | Returned w =>
  match int d with Raised e => Raised e | Returned h =>
    Returned (x, y, w, h)
  end end end end.

Definition region_json (r : region) : json :=
  let '(x, y, w, h) := r in JList [JInt x; JInt y; JInt w; JInt h].

Definition _update_config_data (self : BotGUI) : gmap string json :=
  let cfg := config_data self in
  let cfg :=
    match int4 (pb_x self) (pb_y self) (pb_w self) (pb_h self) with
    | Raised _ => cfg
    | Returned pb =>
        let cfg := <["pokeball_region" := region_json pb]> cfg in
        match int4 (nm_x self) (nm_y self) (nm_w self) (nm_h self) with
        | Raised _ => cfg
        | Returned nm => <["name_region" := region_json nm]> cfg
        end
    end in
  let cfg := <["target_pokemons" := JList (JStr <$> target_pokemons self)]> cfg in
  <["preferred_move" := JStr (move_choice_var self)]> cfg.

Definition with_flags (self : BotGUI) (cfg : gmap string json) : BotGUI :=
  {| config_data := cfg; window_id := window_id self;
     window_bounds := window_bounds self;
     pb_x := pb_x self; pb_y := pb_y self; pb_w := pb_w self; pb_h := pb_h self;
     nm_x := nm_x self; nm_y := nm_y self; nm_w := nm_w self; nm_h := nm_h self;
     target_pokemons := target_pokemons self;
     move_choice_var := move_choice_var self;
     stop_event := false; pause_event := false |}.

(** [not self.window_id or not self.window_bounds] *)
Definition window_missing (self : BotGUI) : bool :=
  match window_id self, window_bounds self with
  | Some id, Some bounds => (id =? 0) || bool_decide (bounds = ∅)
  | _, _ => true
  end.

(** [start_bot]: the object afterwards, the events, and the thread
    it started, if it started one. *)
Definition start_bot (self : BotGUI) : BotGUI * list event * option BotThread :=
  if window_missing self then (self, [log_put Msg_find_window_first], None)
  else
    let self := with_flags self (config_data self) in
    match int4 (pb_x self) (pb_y self) (pb_w self) (pb_h self) with
    | Raised _ => (self, [log_put Msg_invalid_integer], None)
    | Returned pb_region =>
        match int4 (nm_x self) (nm_y self) (nm_w self) (nm_h self) with
        | Raised _ => (self, [log_put Msg_invalid_integer], None)
        | Returned nm_region =>
            let cfg := _update_config_data self in
            let self := with_flags self cfg in
            let selected_move := move_choice_var self in
            (self, [log_put Msg_starting_bot; save_config cfg],
             Some {| pokeball_region := pb_region;
                     name_region := nm_region;
                     Mac.target_pokemons := target_pokemons self;
                     move_choice := selected_move |})
        end
    end.

End gui.

End Mac.

(** ** pbobotplus.py *)
Module Plus.

Definition REDDISH_CHECK_COORD : Z * Z := (1390, 340).
Definition POKEMON_NAME_REGION : region := (1224, 339, 145, 20).
Definition target_pokemons : list string := ["Electivire"; "Dustox"].

(** [found] is what [win32gui.FindWindow(None, title)] gave: 0 when no
    window has the title. *)
Definition get_game_hwnd (found : Z) : outcome Z :=
  let hwnd := found in
  if hwnd =? 0 then Raised Exception else Returned hwnd.

(** [client] is the client area as [BitBlt] copied it, decoded to RGB. *)
Definition capture_window (client : image) (region : option region) : image :=
  match region with
  | Some (x, y, w, h) => pil_crop (0, 0, 0) client x y (x + w) (y + h)
  | None => client
  end.

(** [region_img.getpixel((0, 0))] *)
Definition get_pixel_color (client : image) (x y : Z) : outcome pixel :=
  let region_img := capture_window client (Some (x, y, 20, 20)) in
  match region_img with
  | (p :: _) :: _ => Returned p
  | _ => Raised IndexError
  end.

Definition is_predefined_coord_reddish (client : image) (x y : Z)
    : outcome (bool * list event) :=
  match get_pixel_color client x y with
  | Raised e => Raised e
  | Returned (r, g, b) =>
      Returned ((150 <? r) && (g <? 100) && (b <? 100),
                [stdout (Msg_pixel_color x y r g b)])
  end.

Definition press_key (key_code : Z) (hold_time : Q) : list event :=
  let lParam_down := Z.lor 1 (Z.shiftl 1 24) in
  let lParam_up :=
    Z.lor (Z.lor (Z.lor 1 (Z.shiftl 1 24)) (Z.shiftl 1 30)) (Z.shiftl 1 31) in
  [PostMessage WM_KEYDOWN key_code lParam_down; sleep hold_time;
   PostMessage WM_KEYUP key_code lParam_up].

Definition default_hold_time : Q := 25 # 100.

(** [last_direction] is the module-level variable; its new value is
    returned with the events. *)
Definition move_in_bushes (last_direction : string) : list event * string :=
  if bool_decide (last_direction = "right")
  then (press_key 37 default_hold_time, "left")
  else (press_key 39 default_hold_time, "right").

Definition get_pokemon_name `{Recognizer} (client : image) : outcome string :=
  let im := capture_window client (Some POKEMON_NAME_REGION) in
  match cvtColor_RGB2GRAY im with
  | Raised e => Raised e
  | Returned gray =>
      let binary := threshold_binary gray 150 255 in
      let text := image_to_string binary in
      Returned (strip text)
  end.

Definition defeat_wild_pokemon : list event := press_key 51 (1 # 10).

(** The value [last_direction] has when [main] starts. *)
Definition initial_direction : string := "right".

Record tick_env := {
  window_at_check : image;
  window_at_name : image
}.

(** One pass of the [while True] of [main]: whether it ended in
    [break], the direction afterwards, the events. *)
Definition tick `{Recognizer} (last_direction : string) (env : tick_env)
    : outcome (bool * string * list event) :=
  let '(moved, d) := move_in_bushes last_direction in
  match is_predefined_coord_reddish (window_at_check env)
          REDDISH_CHECK_COORD.1 REDDISH_CHECK_COORD.2 with
  | Raised e => Raised e
  | Returned (active, printed) =>
      let ev := moved ++ printed ++ [reddish_checked active] in
      if active then
        match get_pokemon_name (window_at_name env) with
        | Raised e => Raised e
        | Returned pokemon_name =>
            let ev := ev ++ [stdout Msg_encountered_plain;
                             stdout (Msg_name pokemon_name)] in
            if existsb (λ target, is_similar pokemon_name target default_threshold)
                       target_pokemons
            then Returned (true, d, ev ++ [stdout (Msg_target_skipping pokemon_name)])
            else Returned (false, d, ev ++ [stdout Msg_defeating_plain]
                                        ++ defeat_wild_pokemon ++ [sleep (25 # 100)])
        end
      else Returned (false, d, ev)
  end.

(** The passes of [main]'s loop on what they see: whether the loop
    ended in [break], the direction then, the events. *)
Fixpoint run_ticks `{Recognizer} (last_direction : string) (envs : list tick_env)
    : outcome (bool * string * list event) :=
  match envs with
  | [] => Returned (false, last_direction, [])
  | env :: envs' =>
      match tick last_direction env with
      | Raised e => Raised e
      | Returned (true, d, ev) => Returned (true, d, ev)
      | Returned (false, d, ev) =>
          match run_ticks d envs' with
          | Raised e => Raised e
          | Returned (ended, d', ev') => Returned (ended, d', ev ++ ev')
          end
      end
  end.

(** [main]: the window is looked up, which raises when there is none;
    then the banner and the loop. *)
Definition main `{Recognizer} (found : Z) (envs : list tick_env)
    : outcome (bool * string * list event) :=
  match get_game_hwnd found with
  | Raised e => Raised e
  | Returned hwnd =>
      match run_ticks initial_direction envs with
      | Raised e => Raised e
      | Returned (ended, d, ev) => Returned (ended, d, stdout Msg_starting_script :: ev)
      end
  end.

End Plus.

(** ** PBObotMac.py: the rest of the control panel *)
Module Panel.

(** One dictionary of [CGWindowListCopyWindowInfo], with the four keys
    [find_window_by_title] reads; a key may be missing. *)
Record window_info := {
  kCGWindowOwnerName : option string;
  kCGWindowName : option string;
  kCGWindowNumber : option Z;
  kCGWindowBounds : option (gmap string Z)
}.

(** [needle in hay] on strings. *)
Fixpoint contains (needle hay : string) : bool :=
  String.prefix needle hay ||
  match hay with
  | EmptyString => false
  | String _ hay' => contains needle hay'
  end.

Fixpoint find_window_by_title (window_list : list window_info)
    (title_substring : string) : option (Z * gmap string Z) :=
  match window_list with
  | [] => None
  | w :: window_list' =>
      let owner_name := default "" (kCGWindowOwnerName w) in
      let window_title := default "" (kCGWindowName w) in
      if contains (lower title_substring) (lower owner_name) ||
         contains (lower title_substring) (lower window_title)
      then
        match kCGWindowNumber w, kCGWindowBounds w with
        | Some window_id, Some bounds =>
            if negb (window_id =? 0) && negb (bool_decide (bounds = ∅))
            then Some (window_id, bounds)
            else find_window_by_title window_list' title_substring
        | _, _ => find_window_by_title window_list' title_substring
        end
      else find_window_by_title window_list' title_substring
  end.

Definition GAME_WINDOW_TITLE : string := "Pokemon Blaze Online".

(** The texts the panel itself logs. *)
Inductive note :=
| Note_window_not_found (title : string)
| Note_found_window (w_id : Z) (w_bounds : gmap string Z)
| Note_find_window_first
| Note_calibration_complete
| Note_added (new_poke : string)
| Note_removed (poke_to_remove : string)
| Note_not_in_list (poke_to_remove : string)
| Note_move_changed (choice : string)
| Note_paused
| Note_resumed
| Note_stopping.

(** What a handler of the panel does to the world. *)
Inductive action :=
| put (n : note)                          (* log_queue.put(("LOG", n)) *)
| saved (data : gmap string json)         (* save_config(data) *)
| inner (e : event)                       (* an effect of the calibration window *)
| root_destroy.

(** The panel: the fields [start_bot] uses, the entry for a name, the
    label of the pause button, and whether a worker thread is alive. *)
Record BotGUI := {
  base : Mac.gui.BotGUI;
  new_pokemon_entry : string;
  pause_btn : string;
  bot_thread_alive : bool
}.

Definition with_base (self : BotGUI) (b : Mac.gui.BotGUI) : BotGUI :=
  {| base := b; new_pokemon_entry := new_pokemon_entry self;
     pause_btn := pause_btn self; bot_thread_alive := bot_thread_alive self |}.

Definition set_window (b : Mac.gui.BotGUI) (w_id : Z) (w_bounds : gmap string Z)
    : Mac.gui.BotGUI :=
  {| Mac.gui.config_data := Mac.gui.config_data b;
     Mac.gui.window_id := Some w_id; Mac.gui.window_bounds := Some w_bounds;
     Mac.gui.pb_x := Mac.gui.pb_x b; Mac.gui.pb_y := Mac.gui.pb_y b;
     Mac.gui.pb_w := Mac.gui.pb_w b; Mac.gui.pb_h := Mac.gui.pb_h b;
     Mac.gui.nm_x := Mac.gui.nm_x b; Mac.gui.nm_y := Mac.gui.nm_y b;
     Mac.gui.nm_w := Mac.gui.nm_w b; Mac.gui.nm_h := Mac.gui.nm_h b;
     Mac.gui.target_pokemons := Mac.gui.target_pokemons b;
     Mac.gui.move_choice_var := Mac.gui.move_choice_var b;
     Mac.gui.stop_event := Mac.gui.stop_event b;
     Mac.gui.pause_event := Mac.gui.pause_event b |}.

Definition set_targets (b : Mac.gui.BotGUI) (targets : list string)
    (cfg : gmap string json) : Mac.gui.BotGUI :=
  {| Mac.gui.config_data := cfg;
     Mac.gui.window_id := Mac.gui.window_id b;
     Mac.gui.window_bounds := Mac.gui.window_bounds b;
     Mac.gui.pb_x := Mac.gui.pb_x b; Mac.gui.pb_y := Mac.gui.pb_y b;
     Mac.gui.pb_w := Mac.gui.pb_w b; Mac.gui.pb_h := Mac.gui.pb_h b;
     Mac.gui.nm_x := Mac.gui.nm_x b; Mac.gui.nm_y := Mac.gui.nm_y b;
     Mac.gui.nm_w := Mac.gui.nm_w b; Mac.gui.nm_h := Mac.gui.nm_h b;
     Mac.gui.target_pokemons := targets;
     Mac.gui.move_choice_var := Mac.gui.move_choice_var b;
     Mac.gui.stop_event := Mac.gui.stop_event b;
     Mac.gui.pause_event := Mac.gui.pause_event b |}.

Definition set_pb (b : Mac.gui.BotGUI) (x y w h : string) : Mac.gui.BotGUI :=
  {| Mac.gui.config_data := Mac.gui.config_data b;
     Mac.gui.window_id := Mac.gui.window_id b;
     Mac.gui.window_bounds := Mac.gui.window_bounds b;
     Mac.gui.pb_x := x; Mac.gui.pb_y := y; Mac.gui.pb_w := w; Mac.gui.pb_h := h;
     Mac.gui.nm_x := Mac.gui.nm_x b; Mac.gui.nm_y := Mac.gui.nm_y b;
     Mac.gui.nm_w := Mac.gui.nm_w b; Mac.gui.nm_h := Mac.gui.nm_h b;
     Mac.gui.target_pokemons := Mac.gui.target_pokemons b;
     Mac.gui.move_choice_var := Mac.gui.move_choice_var b;
     Mac.gui.stop_event := Mac.gui.stop_event b;
     Mac.gui.pause_event := Mac.gui.pause_event b |}.

Definition set_nm (b : Mac.gui.BotGUI) (x y w h : string) : Mac.gui.BotGUI :=
  {| Mac.gui.config_data := Mac.gui.config_data b;
     Mac.gui.window_id := Mac.gui.window_id b;
     Mac.gui.window_bounds := Mac.gui.window_bounds b;
     Mac.gui.pb_x := Mac.gui.pb_x b; Mac.gui.pb_y := Mac.gui.pb_y b;
     Mac.gui.pb_w := Mac.gui.pb_w b; Mac.gui.pb_h := Mac.gui.pb_h b;
     Mac.gui.nm_x := x; Mac.gui.nm_y := y; Mac.gui.nm_w := w; Mac.gui.nm_h := h;
     Mac.gui.target_pokemons := Mac.gui.target_pokemons b;
     Mac.gui.move_choice_var := Mac.gui.move_choice_var b;
     Mac.gui.stop_event := Mac.gui.stop_event b;
     Mac.gui.pause_event := Mac.gui.pause_event b |}.

Definition set_config (b : Mac.gui.BotGUI) (cfg : gmap string json)
    : Mac.gui.BotGUI :=
  set_targets b (Mac.gui.target_pokemons b) cfg.

Definition find_pbo_window (self : BotGUI) (window_list : list window_info)
    : BotGUI * list action :=
  match find_window_by_title window_list GAME_WINDOW_TITLE with
  | None => (self, [put (Note_window_not_found GAME_WINDOW_TITLE)])
  | Some (w_id, w_bounds) =>
      (with_base self (set_window (base self) w_id w_bounds),
       [put (Note_found_window w_id w_bounds)])
  end.

(** [list.remove(x)]: the first occurrence goes. *)
Fixpoint remove_first (x : string) (l : list string) : list string :=
  match l with
  | [] => []
  | y :: l' => if bool_decide (y = x) then l' else y :: remove_first x l'
  end.

Definition targets_json (targets : list string) : json := JList (JStr <$> targets).

Definition clear_entry (self : BotGUI) (b : Mac.gui.BotGUI) : BotGUI :=
  {| base := b; new_pokemon_entry := "";
     pause_btn := pause_btn self; bot_thread_alive := bot_thread_alive self |}.

Definition add_pokemon (self : BotGUI) : BotGUI * list action :=
  let new_poke := strip (new_pokemon_entry self) in
  if bool_decide (new_poke = "") then (self, [])
  else
    let targets := Mac.gui.target_pokemons (base self) ++ [new_poke] in
    let cfg := <["target_pokemons" := targets_json targets]>
                 (Mac.gui.config_data (base self)) in
    (clear_entry self (set_targets (base self) targets cfg),
     [put (Note_added new_poke); saved cfg]).

Definition remove_pokemon (self : BotGUI) : BotGUI * list action :=
  let poke_to_remove := strip (new_pokemon_entry self) in
  if bool_decide (poke_to_remove = "") then (self, [])
  else
    let found := bool_decide (poke_to_remove ∈ Mac.gui.target_pokemons (base self)) in
    let targets :=
      if found then remove_first poke_to_remove (Mac.gui.target_pokemons (base self))
      else Mac.gui.target_pokemons (base self) in
    let cfg := <["target_pokemons" := targets_json targets]>
                 (Mac.gui.config_data (base self)) in
    (clear_entry self (set_targets (base self) targets cfg),
     [put (if found then Note_removed poke_to_remove
           else Note_not_in_list poke_to_remove);
      saved cfg]).

(** [str(n)] for an integer: decimal, with a minus sign when negative. *)
Definition digit_char (d : Z) : ascii := ascii_of_N (Z.to_N (48 + d)).

Fixpoint digits_of (rounds : nat) (n : Z) (acc : list ascii) : list ascii :=
  match rounds with
  | O => acc
  | S rounds' =>
      let acc' := digit_char (n mod 10) :: acc in
      if n <? 10 then acc' else digits_of rounds' (n / 10) acc'
  end.

Definition str (n : Z) : string :=
  let m := Z.abs n in
  let digits := digits_of (S (Z.to_nat (Z.log2 m))) m [] in
  string_of_list_ascii (if n <? 0 then "-"%char :: digits else digits).

(** [calibrate_regions]: the window check, the calibration session on
    the events it gets, the entries filled with the boxes it returns,
    and the configuration saved.  The result is the panel, what was
    done, and the exception the call ends with, if it does; [None]
    when the call has not returned.  Once the root window is destroyed
    every call on an entry raises [TclError]: the first [delete] when a
    box came back, the first [get] of [_update_config_data] otherwise. *)
Definition calibrate_regions (self : BotGUI) (full_image_ref : option cgimage)
    (events : list Mac.dispatched) : option (BotGUI * list action * option exn) :=
  if Mac.gui.window_missing (base self)
  then Some (self, [put Note_find_window_first], None)
  else
    match Mac.calibrate_two_regions full_image_ref events with
    | None => None
    | Some (pb_box, nm_box, ev, root_alive) =>
        if root_alive then
          let b := base self in
          let b := match pb_box with
                   | Some (x, y, w, h) => set_pb b (str x) (str y) (str w) (str h)
                   | None => b
                   end in
          let b := match nm_box with
                   | Some (x, y, w, h) => set_nm b (str x) (str y) (str w) (str h)
                   | None => b
                   end in
          let cfg := Mac.gui._update_config_data b in
          Some (with_base self (set_config b cfg),
                (inner <$> ev) ++ [put Note_calibration_complete; saved cfg], None)
        else
          match pb_box, nm_box with
          | None, None =>
              Some (self, (inner <$> ev) ++ [put Note_calibration_complete],
                    Some TclError)
          | _, _ => Some (self, inner <$> ev, Some TclError)
          end
    end.

Definition on_move_changed (self : BotGUI) (choice : string) : BotGUI * list action :=
  let cfg := <["preferred_move" := JStr choice]> (Mac.gui.config_data (base self)) in
  (with_base self (set_config (base self) cfg),
   [saved cfg; put (Note_move_changed choice)]).

Definition set_flags (b : Mac.gui.BotGUI) (stop pause : bool) : Mac.gui.BotGUI :=
  {| Mac.gui.config_data := Mac.gui.config_data b;
     Mac.gui.window_id := Mac.gui.window_id b;
     Mac.gui.window_bounds := Mac.gui.window_bounds b;
     Mac.gui.pb_x := Mac.gui.pb_x b; Mac.gui.pb_y := Mac.gui.pb_y b;
     Mac.gui.pb_w := Mac.gui.pb_w b; Mac.gui.pb_h := Mac.gui.pb_h b;
     Mac.gui.nm_x := Mac.gui.nm_x b; Mac.gui.nm_y := Mac.gui.nm_y b;
     Mac.gui.nm_w := Mac.gui.nm_w b; Mac.gui.nm_h := Mac.gui.nm_h b;
     Mac.gui.target_pokemons := Mac.gui.target_pokemons b;
     Mac.gui.move_choice_var := Mac.gui.move_choice_var b;
     Mac.gui.stop_event := stop; Mac.gui.pause_event := pause |}.

Definition pause_bot (self : BotGUI) : BotGUI * list action :=
  if negb (Mac.gui.pause_event (base self)) then
    ({| base := set_flags (base self) (Mac.gui.stop_event (base self)) true;
        new_pokemon_entry := new_pokemon_entry self;
        pause_btn := "Resume"; bot_thread_alive := bot_thread_alive self |},
     [put Note_paused])
  else
    ({| base := set_flags (base self) (Mac.gui.stop_event (base self)) false;
        new_pokemon_entry := new_pokemon_entry self;
        pause_btn := "Pause"; bot_thread_alive := bot_thread_alive self |},
     [put Note_resumed]).

Definition stop_bot (self : BotGUI) : BotGUI * list action :=
  let '(stop, ev) :=
    if bot_thread_alive self then (true, [put Note_stopping])
    else (Mac.gui.stop_event (base self), []) in
  ({| base := set_flags (base self) stop false;
      new_pokemon_entry := new_pokemon_entry self;
      pause_btn := "Pause"; bot_thread_alive := bot_thread_alive self |}, ev).

Definition on_closing (self : BotGUI) : BotGUI * list action :=
  let cfg := Mac.gui._update_config_data (base self) in
  (with_base self (set_config (base self) cfg), [saved cfg; root_destroy]).

End Panel.

(** ** Vocabulary of the properties *)

(** A pixel lies within the inclusive per-channel bounds. *)
Definition within_bounds (lower upper p : pixel) : Prop :=
  lower.1.1 <= p.1.1 <= upper.1.1 ∧
  lower.1.2 <= p.1.2 <= upper.1.2 ∧
  lower.2 <= p.2 <= upper.2.

(** Some pixel of the image lies within the bounds. *)
Definition some_pixel_within (lower upper : pixel) (img : image) : Prop :=
  ∃ row p, row ∈ img ∧ p ∈ row ∧ within_bounds lower upper p.

(** No white space at either end of a text. *)
Definition trimmed (s : string) : Prop :=
  (∀ c rest, chars s = c :: rest → py_isspace c = false) ∧
  (∀ c front, chars s = front ++ [c] → py_isspace c = false).

(** The rectangle the specification asks of a drag from [(x1, y1)] to
    [(x2, y2)]. *)
Definition normalized (x1 y1 x2 y2 : Z) : region :=
  (Z.min x1 x2, Z.min y1 y2, Z.abs (x2 - x1), Z.abs (y2 - y1)).

(** What a press at [(x1, y1)] followed by a release at [(x2, y2)]
    leaves in [result]. *)
Definition drag (st : Mac.calibration) (rect_id x1 y1 x2 y2 : Z)
    : outcome (list (option region)) :=
  match Mac.on_button_release (Mac.on_button_press st x1 y1 rect_id) x2 y2 with
  | Returned (st', _) => Returned (Mac.result st')
  | Raised e => Raised e
  end.

(** The states the calibration window is in while it takes drags: two
    slots, and the index at the first or the second. *)
Definition calibrating (st : Mac.calibration) : Prop :=
  length (Mac.result st) = 2%nat ∧
  (Mac.region_index st = 0 ∨ Mac.region_index st = 1).

(** The built-in configuration. *)
Definition builtin_defaults : gmap string json :=
  list_to_map
    [("pokeball_region", JList [JInt 1380; JInt 330; JInt 60; JInt 20]);
     ("name_region", JList [JInt 1224; JInt 339; JInt 145; JInt 20]);
     ("target_pokemons", JList [JStr "Electivire"; JStr "Xurkitree"; JStr "Garchomp"]);
     ("preferred_move", JStr "1")].

(** A recogniser for the worked examples: mean of the channels, and a
    reading that is the same whatever the image. *)
Definition reads (text : string) : Recognizer :=
  {| rgb2gray := λ p, (p.1.1 + p.1.2 + p.2) / 3;
     image_to_string := λ _, text |}.

(** The directional key presses of a trace, as key codes: the arrows
    are 123 and 124 on macOS, 37 and 39 (virtual keys) on Windows. *)
Definition directional_key (e : event) : option Z :=
  match e with
  | CGEventPost key_code true =>
      if (key_code =? 123) || (key_code =? 124) then Some key_code else None
  | PostMessage WM_KEYDOWN key_code _ =>
      if (key_code =? 37) || (key_code =? 39) then Some key_code else None
  | _ => None
  end.

Definition directional_keys (tr : list event) : list Z :=
  omap directional_key tr.






(** The times of the no-encounters alerts of a trace: each alert is
    dated by the watchdog's clock reading that precedes it. *)
Fixpoint alert_times_from (now : Q) (tr : list event) : list Q :=
  match tr with
  | [] => []
  | time_time At_watchdog t :: tr' => alert_times_from t tr'
  | log_put Msg_no_encounters_beep :: tr' => now :: alert_times_from now tr'
  | _ :: tr' => alert_times_from now tr'
  end.

Definition alert_times (tr : list event) : list Q := alert_times_from 0 tr.

(** The watchdog as the specification words it: an alert at the first
    reading that reaches the deadline, the deadline then ten seconds
    after that reading. *)
Fixpoint due (deadline : Q) (readings : list Q) : list Q :=
  match readings with
  | [] => []
  | now :: readings' =>
      if Qle_bool deadline now then now :: due (now + 10) readings'
      else due deadline readings'
  end.

(** Alerts no earlier than [deadline], and ten seconds or more apart. *)
Fixpoint spaced (deadline : Q) (alerts : list Q) : Prop :=
  match alerts with
  | [] => True
  | a :: alerts' => (deadline <= a)%Q ∧ spaced (a + 10) alerts'
  end.

(** A pass on which the loop neither stops nor sees an encounter. *)
Definition quiet (self : Mac.BotThread) (env : Mac.tick_env) : Prop :=
  Mac.stop_is_set env = false ∧
  (Mac.pause_is_set env = true ∨
   Mac.is_reddish_in_region (Mac.window_at_check env) (Mac.pokeball_region self)
     Mac.default_lower_thresh Mac.default_upper_thresh = Returned false).

(** The watchdog readings of the passes that are not paused. *)
Definition readings (envs : list Mac.tick_env) : list Q :=
  Mac.clock_at_watchdog <$> filter (λ env, Mac.pause_is_set env = false) envs.

(** A pass that is paused, or whose watchdog reading is before [t]. *)
Definition before (t : Q) (env : Mac.tick_env) : Prop :=
  Mac.pause_is_set env = true ∨ (Mac.clock_at_watchdog env < t)%Q.

(** A region of zero width or zero height. *)
Definition degenerate (r : region) : Prop :=
  r.1.2 = 0 ∨ r.2 = 0.

(** A window that was found, and a first region typed with width 0. *)
Definition zero_width_gui : Mac.gui.BotGUI :=
  {| Mac.gui.config_data := builtin_defaults;
     Mac.gui.window_id := Some 4711;
     Mac.gui.window_bounds :=
       Some (list_to_map [("X", 0); ("Y", 0); ("Width", 1600); ("Height", 900)]);
     Mac.gui.pb_x := "1380"; Mac.gui.pb_y := "330";
     Mac.gui.pb_w := "0"; Mac.gui.pb_h := "20";
     Mac.gui.nm_x := "1224"; Mac.gui.nm_y := "339";
     Mac.gui.nm_w := "145"; Mac.gui.nm_h := "20";
     Mac.gui.target_pokemons := ["Garchomp"];
     Mac.gui.move_choice_var := "1";
     Mac.gui.stop_event := false;
     Mac.gui.pause_event := false |}.


(** What [find_longest_match] maintains on the [a] side while it scans
    from [alo]: before row [i], every recorded length fits between
    [alo] and [i], and so does the best block. *)
Definition lengths_fit (alo i : Z) (j2len : gmap Z Z) : Prop :=
  ∀ j v, j2len !! j = Some v → 1 <= v <= i - alo.

Definition block_fits (alo i : Z) (m : difflib.Match) : Prop :=
  alo <= m.1.1 ∧ 0 <= m.2 ∧ m.1.1 + m.2 <= i.

(** The work the queue of [get_matching_blocks] still holds: twice the
    width of each pending range of [a], plus one. *)
Definition pending (queue : list (Z * Z * Z * Z)) : nat :=
  foldr (λ '(alo, ahi, _, _) n, (2 * Z.to_nat (ahi - alo) + 1 + n)%nat) 0%nat queue.

Definition ranges_ordered (queue : list (Z * Z * Z * Z)) : Prop :=
  Forall (λ '(alo, ahi, _, _), alo <= ahi) queue.

(** ** Vocabulary of the further properties *)

(** The locals after the movement step of a pass, and after an
    encounter counted at clock reading [t]. *)
Definition stepped (st : Mac.locals) : Mac.locals :=
  {| Mac.encounter_count := Mac.encounter_count st;
     Mac.last_encounter_time := Mac.last_encounter_time st;
     Mac.next_check_time := Mac.next_check_time st;
     Mac.last_dir := if Mac.last_dir st =? 0 then 1 else 0 |}.

Definition counted (st : Mac.locals) (t : Q) : Mac.locals :=
  {| Mac.encounter_count := Mac.encounter_count st + 1;
     Mac.last_encounter_time := t;
     Mac.next_check_time := t + 10;
     Mac.last_dir := Mac.last_dir st |}.

(** The events of the movement step from the locals [st]. *)
Definition movement (st : Mac.locals) : list event :=
  let key := if Mac.last_dir st =? 0 then 124 else 123 in
  [CGEventPost key true; sleep Mac.default_hold_time; CGEventPost key false].

(** The number of events of a trace that [f] selects. *)
Definition tally (f : event → bool) (tr : list event) : nat :=
  length (filter (λ e, f e = true) tr).

Definition is_encounter (e : event) : bool :=
  match e with reddish_checked true => true | _ => false end.

(** A press of one of the five move keys: 1, 2, 3, 4 and r. *)
Definition is_combat_press (e : event) : bool :=
  match e with
  | CGEventPost key_code true =>
      (key_code =? 18) || (key_code =? 19) || (key_code =? 20) ||
      (key_code =? 21) || (key_code =? 15)
  | _ => false
  end.

Definition is_target_alert (e : event) : bool :=
  match e with log_put (Msg_target_stopping _) => true | _ => false end.

(** Every key that goes down is held for a sleep and then released,
    before anything else happens to the keyboard. *)
Fixpoint held_then_released (tr : list event) : bool :=
  match tr with
  | [] => true
  | CGEventPost key_code true :: sleep _ :: CGEventPost key_code' false :: tr' =>
      (key_code =? key_code') && held_then_released tr'
  | CGEventPost _ _ :: _ => false
  | _ :: tr' => held_then_released tr'
  end.

(** Every no-encounters alert of a trace comes ten seconds or more
    after the latest clock reading taken at the start or at an
    encounter; [last] and [now] are the latest such reading and the
    latest watchdog reading before the trace. *)
Fixpoint alerts_clear (last now : Q) (tr : list event) : Prop :=
  match tr with
  | [] => True
  | time_time At_watchdog t :: tr' => alerts_clear last t tr'
  | time_time _ t :: tr' => alerts_clear t now tr'
  | log_put Msg_no_encounters_beep :: tr' =>
      (last + 10 <= now)%Q ∧ alerts_clear last now tr'
  | _ :: tr' => alerts_clear last now tr'
  end.

(** The key code [defeat_wild_pokemon] presses for a move choice. *)
Definition move_key_code (move_choice : string) : Z :=
  if bool_decide (move_choice = "2") then 19
  else if bool_decide (move_choice = "3") then 20
  else if bool_decide (move_choice = "4") then 21
  else if bool_decide (move_choice = "r") then 15
  else 18.

(** A pass on which stop is not requested and pause is. *)
Definition paused (env : Mac.tick_env) : Prop :=
  Mac.stop_is_set env = false ∧ Mac.pause_is_set env = true.

(** A worker and passes for the worked examples: the window shows one
    pixel, reddish or black. *)
Definition sample_bot : Mac.BotThread :=
  {| Mac.pokeball_region := (0, 0, 1, 1);
     Mac.name_region := (0, 0, 1, 1);
     Mac.target_pokemons := ["Garchomp"];
     Mac.move_choice := "3" |}.

Definition sample_pass (stop pause active : bool) (t : Q) : Mac.tick_env :=
  {| Mac.stop_is_set := stop; Mac.pause_is_set := pause;
     Mac.window_at_check :=
       Some [[if active then (200, 50, 50, 255) else (0, 0, 0, 255)]];
     Mac.clock_at_encounter := t;
     Mac.window_at_name := Some [[(255, 255, 255, 255)]];
     Mac.clock_at_watchdog := t |}.


(** The pixel of an image at column [cx] of row [cy], when it has one. *)
Definition pixel_at {A} (img : list (list A)) (cx cy : Z) : option A :=
  if (cx <? 0) || (cy <? 0) then None
  else img !! Z.to_nat cy ≫= λ row, row !! Z.to_nat cx.

(** Reading one more decimal digit after the value [a]. *)
Definition decimal_step (a : Z) (c : ascii) : Z :=
  10 * a + default 0 (Mac.gui.digit_value c).

Definition is_decimal (c : ascii) : Prop := is_Some (Mac.gui.digit_value c).

(** A window of the list that [find_window_by_title] accepts for
    [title]: the title occurs in its owner name or in its name, letter
    case aside, and it has a non-zero number and non-empty bounds. *)
Definition accepted (title : string) (w : Panel.window_info)
    (w_id : Z) (w_bounds : gmap string Z) : Prop :=
  (Panel.contains (lower title) (lower (default "" (Panel.kCGWindowOwnerName w))) = true ∨
   Panel.contains (lower title) (lower (default "" (Panel.kCGWindowName w))) = true) ∧
  Panel.kCGWindowNumber w = Some w_id ∧ Panel.kCGWindowBounds w = Some w_bounds ∧
  w_id ≠ 0 ∧ w_bounds ≠ ∅.

(** A panel for the worked examples. *)
Definition sample_panel (entry : string) (targets : list string) : Panel.BotGUI :=
  {| Panel.base := Panel.set_targets zero_width_gui targets builtin_defaults;
     Panel.new_pokemon_entry := entry;
     Panel.pause_btn := "Pause";
     Panel.bot_thread_alive := false |}.

(** The panel after [text] is typed into the name entry. *)
Definition typed (self : Panel.BotGUI) (text : string) : Panel.BotGUI :=
  {| Panel.base := Panel.base self; Panel.new_pokemon_entry := text;
     Panel.pause_btn := Panel.pause_btn self;
     Panel.bot_thread_alive := Panel.bot_thread_alive self |}.

(** The target list of a panel. *)
Definition targets_of (self : Panel.BotGUI) : list string :=
  Mac.gui.target_pokemons (Panel.base self).

(** What the lengths recorded before row [i] satisfy when a sequence is
    matched against itself from the start: a match that ends at index
    [j] of [b] and before row [i] of [a] is no longer than either
    allows. *)
Definition self_fit (i : Z) (j2len : gmap Z Z) : Prop :=
  ∀ j v, j2len !! j = Some v → 1 <= v ∧ v <= i ∧ v <= j + 1.

(** The scan of a sequence against itself, before row [i]: the best
    block is the first [i] elements, and the diagonal is recorded. *)
Definition self_scanned (i : Z) (acc : gmap Z Z * difflib.Match) : Prop :=
  acc.2 = (0, 0, i) ∧ self_fit i acc.1 ∧ (i = 0 ∨ acc.1 !! (i - 1) = Some i).





(** The text of the eight region entries of a panel. *)
Definition region_entries (b : Mac.gui.BotGUI) : list string :=
  [Mac.gui.pb_x b; Mac.gui.pb_y b; Mac.gui.pb_w b; Mac.gui.pb_h b;
   Mac.gui.nm_x b; Mac.gui.nm_y b; Mac.gui.nm_w b; Mac.gui.nm_h b].

(** What the encounter check and the name reader give on a pass. *)
Definition checked (self : Mac.BotThread) (env : Mac.tick_env) : outcome bool :=
  Mac.is_reddish_in_region (Mac.window_at_check env) (Mac.pokeball_region self)
    Mac.default_lower_thresh Mac.default_upper_thresh.

Definition named `{Recognizer} (self : Mac.BotThread) (env : Mac.tick_env)
    : outcome string :=
  Mac.get_pokemon_name (Mac.window_at_name env) (Mac.name_region self).



(** The cases of a pass, for the proofs that go through them. *)
Ltac tick_split :=
  unfold checked, named;
  destruct (Mac.is_reddish_in_region _ _ _ _) as [[|]|?];
    [destruct (Mac.get_pokemon_name _ _) as [?|?];
       [destruct (existsb _ _)|]| |].

(** * Properties *)

(** ** The encounter detector *)

Lemma existsb_elem_of {A} (f : A → bool) (l : list A) :
  existsb f l = true ↔ ∃ x, x ∈ l ∧ f x = true.
Proof.
  rewrite existsb_exists. split; intros (x & Hx & Hf); exists x; split; auto;
    by apply list_elem_of_In.
Qed.

Lemma inRange_swapped_positive (lower upper p : pixel) :
  (0 <? (if (lower.2 <=? p.2) && (p.2 <=? upper.2) &&
            (lower.1.2 <=? p.1.2) && (p.1.2 <=? upper.1.2) &&
            (lower.1.1 <=? p.1.1) && (p.1.1 <=? upper.1.1)
         then 255 else 0)) = true ↔ within_bounds lower upper p.
Proof.
  unfold within_bounds.
  destruct (lower.2 <=? p.2) eqn:E1, (p.2 <=? upper.2) eqn:E2,
           (lower.1.2 <=? p.1.2) eqn:E3, (p.1.2 <=? upper.1.2) eqn:E4,
           (lower.1.1 <=? p.1.1) eqn:E5, (p.1.1 <=? upper.1.1) eqn:E6;
    simpl; split; try discriminate; try (intros _; lia); try (intros; lia);
    intros; reflexivity.
Qed.

Lemma detector_on_image (region_img : image) (lower upper : pixel) :
  Mac.np_any_positive
    (Mac.inRange ((λ row : list pixel, (λ p : pixel, (p.2, p.1.2, p.1.1)) <$> row)
                    <$> region_img)
                 (lower.2, lower.1.2, lower.1.1) (upper.2, upper.1.2, upper.1.1)) = true
  ↔ some_pixel_within lower upper region_img.
Proof.
  unfold Mac.np_any_positive, Mac.inRange, some_pixel_within.
  rewrite existsb_elem_of. split.
  - intros (mrow & Hm & Hrow).
    apply list_elem_of_fmap in Hm as (brow & -> & Hb).
    apply list_elem_of_fmap in Hb as (row & -> & Hr).
    apply existsb_elem_of in Hrow as (v & Hv & Hpos).
    apply list_elem_of_fmap in Hv as (q & -> & Hq).
    apply list_elem_of_fmap in Hq as (p & -> & Hp).
    exists row, p. repeat split; auto; simpl in Hpos;
      apply (inRange_swapped_positive lower upper p) in Hpos; apply Hpos.
  - intros (row & p & Hr & Hp & Hin).
    eexists. split.
    + apply list_elem_of_fmap. eexists. split; [reflexivity|].
      apply list_elem_of_fmap. exists row. split; [reflexivity|exact Hr].
    + apply existsb_elem_of. eexists. split.
      * apply list_elem_of_fmap. eexists. split; [reflexivity|].
        apply list_elem_of_fmap. exists p. split; [reflexivity|exact Hp].
      * simpl. by apply inRange_swapped_positive.
Qed.

(** An array with an element is not empty. *)
Lemma np_empty_false {A} (np_img : list (list A)) (row : list A) (p : A) :
  row ∈ np_img → p ∈ row → np_empty np_img = false.
Proof.
  intros Hrow Hp. unfold np_empty.
  destruct (forallb _ np_img) eqn:E; [|reflexivity].
  rewrite forallb_forall in E. specialize (E row).
  rewrite <- list_elem_of_In in E. specialize (E Hrow).
  destruct row; [by apply elem_of_nil in Hp | discriminate].
Qed.

(** The detector on a capture that succeeded. *)
Lemma is_reddish_on_capture (full_image_ref : option cgimage) (r : region)
    (region_img : image) (lower upper : pixel) :
  Mac.capture_window_mac full_image_ref (Some r) = Some region_img →
  Mac.is_reddish_in_region full_image_ref r lower upper =
    if np_empty region_img then Raised cv2_error
    else Returned
           (Mac.np_any_positive
              (Mac.inRange
                 ((λ row : list pixel, (λ p : pixel, (p.2, p.1.2, p.1.1)) <$> row)
                    <$> region_img)
                 (lower.2, lower.1.2, lower.1.1) (upper.2, upper.1.2, upper.1.1))).
Proof.
  intros Hcap. unfold Mac.is_reddish_in_region, Mac.cvtColor_RGB2BGR, cvtColor.
  rewrite Hcap. by destruct (np_empty region_img).
Qed.

Lemma capture_fails_iff (full_image_ref : option cgimage) (r : option region) :
  Mac.capture_window_mac full_image_ref r = None ↔ full_image_ref = None.
Proof. destruct full_image_ref; simpl; split; congruence. Qed.

(** A crop has no pixel exactly when its box has no width or no
    height. *)
Lemma np_empty_crop {A} (blank : A) (img : list (list A)) (x y x2 y2 : Z) :
  np_empty (pil_crop blank img x y x2 y2) = (x2 <=? x) || (y2 <=? y).
Proof.
  unfold np_empty, pil_crop.
  destruct (x2 <=? x) eqn:Ex; cbn [orb].
  - apply Z.leb_le in Ex. apply forallb_forall. intros row Hin.
    apply list_elem_of_In, list_elem_of_fmap in Hin as (cy & -> & _).
    by rewrite seqZ_nil by lia.
  - apply Z.leb_gt in Ex. destruct (y2 <=? y) eqn:Ey.
    + apply Z.leb_le in Ey. by rewrite (seqZ_nil y) by lia.
    + apply Z.leb_gt in Ey. rewrite (seqZ_cons y) by lia.
      cbn [fmap list_fmap forallb]. by rewrite (seqZ_cons x) by lia.
Qed.

Lemma np_empty_fmap {A B} (f : A → B) (np_img : list (list A)) :
  np_empty ((λ row : list A, f <$> row) <$> np_img) = np_empty np_img.
Proof.
  unfold np_empty. induction np_img as [|row np_img IH]; [reflexivity|].
  cbn [fmap list_fmap forallb]. f_equal; [by destruct row | exact IH].
Qed.

(** On a window that gave an image, the capture of a region has no
    pixel exactly when the region has no width or no height. *)
Lemma capture_empty (window : cgimage) (x y w h : Z) :
  ∃ im, Mac.capture_window_mac (Some window) (Some ((x, y, w, h) : region)) = Some im ∧
        np_empty im = (w <=? 0) || (h <=? 0).
Proof.
  eexists. split; [reflexivity|].
  unfold pil_convert_rgb. rewrite np_empty_fmap, np_empty_crop.
  f_equal; [destruct (w <=? 0) eqn:E | destruct (h <=? 0) eqn:E]; lia.
Qed.

Lemma plus_capture_20 (client : image) (x y : Z) :
  ∃ row rows, Plus.capture_window client (Some (x, y, 20, 20))
              = (pil_getpixel (0, 0, 0) client x y :: row) :: rows.
Proof.
  unfold Plus.capture_window, pil_crop.
  replace (x + 20 - x) with 20 by lia. replace (y + 20 - y) with 20 by lia.
  unfold seqZ. simpl.
  replace (0 + x) with x by lia. replace (0 + y) with y by lia.
  eauto.
Qed.

Lemma is_predefined_coord_reddish_eq (client : image) (x y : Z) :
  Plus.is_predefined_coord_reddish client x y =
    (let '(r, g, b) := pil_getpixel (0, 0, 0) client x y in
     Returned (bool_decide (150 < r ∧ g < 100 ∧ b < 100),
               [stdout (Msg_pixel_color x y r g b)])).
Proof.
  unfold Plus.is_predefined_coord_reddish, Plus.get_pixel_color.
  destruct (plus_capture_20 client x y) as (row & rows & ->).
  destruct (pil_getpixel (0, 0, 0) client x y) as [[pr pg] pb].
  do 2 f_equal.
  destruct (150 <? pr) eqn:E1, (pg <? 100) eqn:E2, (pb <? 100) eqn:E3; simpl;
    symmetry; first [ apply bool_decide_eq_true | apply bool_decide_eq_false ]; lia.
Qed.

(** C1 (as amended).  On the macOS bot the detector answers true exactly
    when some pixel of the captured region lies within the inclusive
    bounds (150,0,0)..(255,100,100) on all three channels; it answers
    at all exactly when the captured region has a pixel, and raises
    OpenCV's error otherwise.  The Windows script instead always gets a
    pixel, the one at the check coordinate, and answers true exactly
    when that pixel has R above 150, G below 100 and B below 100, all
    strictly. *)
Theorem encounter_detectors
    (full_image_ref : option cgimage) (r : region) (region_img : image)
    (client : image) (x y : Z)
    (Hcap : Mac.capture_window_mac full_image_ref (Some r) = Some region_img) :
  (Mac.is_reddish_in_region full_image_ref r
     Mac.default_lower_thresh Mac.default_upper_thresh = Returned true
   ↔ some_pixel_within (150, 0, 0) (255, 100, 100) region_img) ∧
  match Mac.is_reddish_in_region full_image_ref r
          Mac.default_lower_thresh Mac.default_upper_thresh with
  | Returned _ => np_empty region_img = false
  | Raised e => e = cv2_error ∧ np_empty region_img = true
  end ∧
  Plus.is_predefined_coord_reddish client x y =
    (let '(r, g, b) := pil_getpixel (0, 0, 0) client x y in
     Returned (bool_decide (150 < r ∧ g < 100 ∧ b < 100),
               [stdout (Msg_pixel_color x y r g b)])).
Proof.
  rewrite (is_reddish_on_capture _ _ _ _ _ Hcap).
  split; [|split].
  - pose proof (detector_on_image region_img (150, 0, 0) (255, 100, 100)) as Hdet.
    destruct (np_empty region_img) eqn:Hempty.
    + split; [discriminate|].
      intros (row & p & Hrow & Hp & _).
      by rewrite (np_empty_false _ _ _ Hrow Hp) in Hempty.
    + split.
      * intros [= Hb]. apply Hdet. exact Hb.
      * intros Hin. f_equal. apply Hdet. exact Hin.
  - by destruct (np_empty region_img).
  - apply is_predefined_coord_reddish_eq.
Qed.

Lemma encounter_detectors_witness :
  Mac.capture_window_mac (Some [[(150, 0, 0, 255)]]) (Some (0, 0, 1, 1))
    = Some [[(150, 0, 0)]] ∧
  (Mac.is_reddish_in_region (Some [[(150, 0, 0, 255)]]) (0, 0, 1, 1)
     Mac.default_lower_thresh Mac.default_upper_thresh = Returned true
   ↔ some_pixel_within (150, 0, 0) (255, 100, 100) [[(150, 0, 0)]]).
Proof.
  split; [reflexivity|].
  apply (encounter_detectors (Some [[(150, 0, 0, 255)]]) (0, 0, 1, 1)
           [[(150, 0, 0)]] [] 0 0).
  reflexivity.
Defined.

(** C1 as stated fails on the Windows script: the captured region holds
    a pixel that is exactly (150,0,0), within the inclusive bounds, and
    the detector answers false. *)
Lemma windows_detector_misses_lower_bound :
  some_pixel_within (150, 0, 0) (255, 100, 100)
    (Plus.capture_window [[(150, 0, 0)]] (Some (0, 0, 20, 20))) ∧
  Plus.is_predefined_coord_reddish [[(150, 0, 0)]] 0 0
    = Returned (false, [stdout (Msg_pixel_color 0 0 150 0 0)]).
Proof.
  split; [|reflexivity].
  eexists _, (150, 0, 0). split; [apply list_elem_of_here|].
  split; [apply list_elem_of_here|].
  unfold within_bounds; simpl; lia.
Qed.

(** C8.  The capture of the indicator region fails only when the
    window gave no image; the detector then answers false, whatever the
    region and the bounds, and the pass of the loop that asked goes on
    to its end: it neither breaks nor leaves the loop, and counts no
    encounter. *)
Theorem capture_failure_is_not_active `{Recognizer}
    (full_image_ref : option cgimage) (r : region) (lower upper : pixel)
    (self : Mac.BotThread) (st : Mac.locals) (env : Mac.tick_env)
    (Hcap : Mac.capture_window_mac full_image_ref (Some r) = None)
    (Hstop : Mac.stop_is_set env = false)
    (Hpause : Mac.pause_is_set env = false)
    (Hwin : Mac.window_at_check env = full_image_ref)
    (Hreg : Mac.pokeball_region self = r) :
  full_image_ref = None ∧
  Mac.is_reddish_in_region full_image_ref r lower upper = Returned false ∧
  (Mac.tick self st env).1.1 = Mac.Next ∧
  reddish_checked false ∈ (Mac.tick self st env).2 ∧
  Mac.encounter_count (Mac.tick self st env).1.2 = Mac.encounter_count st.
Proof.
  assert (Hdet : ∀ lo up,
            Mac.is_reddish_in_region full_image_ref r lo up = Returned false).
  { intros lo up. unfold Mac.is_reddish_in_region. by rewrite Hcap. }
  split; [by apply (capture_fails_iff full_image_ref (Some r))|].
  split; [apply Hdet|].
  unfold Mac.tick. rewrite Hstop, Hpause, Hwin, Hreg, Hdet.
  destruct (Mac.move_in_bushes (Mac.last_dir st)) as [moved d].
  destruct (Mac.watchdog _ _) as [st' barked] eqn:Hw. simpl.
  split; [reflexivity|]. split.
  - rewrite !elem_of_app. left. right. apply list_elem_of_here.
  - unfold Mac.watchdog in Hw. destruct (Qle_bool _ _); inversion Hw; reflexivity.
Qed.

Lemma capture_failure_is_not_active_witness :
  let self := {| Mac.pokeball_region := (1380, 330, 60, 20);
                 Mac.name_region := (1224, 339, 145, 20);
                 Mac.target_pokemons := ["Garchomp"];
                 Mac.move_choice := "1" |} in
  let env := {| Mac.stop_is_set := false; Mac.pause_is_set := false;
                Mac.window_at_check := None; Mac.clock_at_encounter := 0;
                Mac.window_at_name := None; Mac.clock_at_watchdog := 1 |} in
  Mac.is_reddish_in_region None (1380, 330, 60, 20) (150, 0, 0) (255, 100, 100)
    = Returned false ∧
  (Mac.tick (H := reads "") self (Mac.initial 0) env).1.1 = Mac.Next.
Proof.
  intros self env.
  pose proof (capture_failure_is_not_active (H := reads "") None (1380, 330, 60, 20)
                (150, 0, 0) (255, 100, 100) self (Mac.initial 0) env
                eq_refl eq_refl eq_refl eq_refl eq_refl) as (_ & H1 & H2 & _).
  split; [exact H1 | exact H2].
Defined.

(** ** The name reader *)

Lemma chars_of_list (l : list ascii) : chars (string_of_list_ascii l) = l.
Proof. apply list_ascii_of_string_of_list_ascii. Qed.

Lemma lstrip_head (l : list ascii) (c : ascii) (rest : list ascii) :
  lstrip_chars l = c :: rest → py_isspace c = false.
Proof.
  induction l as [|a l IH]; simpl; [discriminate|].
  destruct (py_isspace a) eqn:E; [exact IH|].
  intros [= <- _]. exact E.
Qed.

Lemma lstrip_snoc (l : list ascii) (c : ascii) :
  py_isspace c = false → lstrip_chars (l ++ [c]) = lstrip_chars l ++ [c].
Proof.
  intros Hc. induction l as [|a l IH]; simpl.
  - by rewrite Hc.
  - destruct (py_isspace a); [exact IH | reflexivity].
Qed.

Lemma rstrip_last (l : list ascii) (c : ascii) (front : list ascii) :
  rstrip_chars l = front ++ [c] → py_isspace c = false.
Proof.
  unfold rstrip_chars. intros Heq.
  apply (f_equal (@rev ascii)) in Heq. rewrite rev_involutive, rev_app_distr in Heq.
  simpl in Heq. by eapply lstrip_head.
Qed.

Lemma rstrip_head (l : list ascii) (c : ascii) (rest : list ascii) :
  (∀ a l', l = a :: l' → py_isspace a = false) →
  rstrip_chars l = c :: rest → py_isspace c = false.
Proof.
  unfold rstrip_chars. destruct l as [|a l]; [simpl; discriminate|].
  intros Hhead Heq. specialize (Hhead a l eq_refl).
  simpl in Heq. rewrite (lstrip_snoc _ _ Hhead), rev_app_distr in Heq.
  simpl in Heq. by inversion Heq; subst.
Qed.

Lemma strip_trimmed (s : string) : trimmed (strip s).
Proof.
  unfold trimmed, strip. rewrite chars_of_list. split.
  - intros c rest. apply rstrip_head. intros a l'. apply lstrip_head.
  - intros c front. apply rstrip_last.
Qed.

(** C9.  Every name the name reader returns has no white space at
    either end, and it is the empty string when the capture of the name
    region fails.  The reader returns a name unless OpenCV raises on a
    captured region without pixels. *)
Theorem get_pokemon_name_trimmed `{Recognizer}
    (full_image_ref : option cgimage) (r : region) :
  match Mac.get_pokemon_name full_image_ref r with
  | Returned pokemon_name => trimmed pokemon_name
  | Raised e =>
      e = cv2_error ∧
      ∃ im, Mac.capture_window_mac full_image_ref (Some r) = Some im ∧
            np_empty im = true
  end ∧
  (Mac.capture_window_mac full_image_ref (Some r) = None →
   Mac.get_pokemon_name full_image_ref r = Returned "") ∧
  Mac.get_pokemon_name None r = Returned "".
Proof.
  unfold Mac.get_pokemon_name, cvtColor_RGB2GRAY, cvtColor. split; [|split].
  - destruct (Mac.capture_window_mac _ _) as [im|].
    + destruct (np_empty im) eqn:Hempty; [eauto | apply strip_trimmed].
    + split; [intros c rest | intros c [|a front]]; simpl; discriminate.
  - by intros ->.
  - reflexivity.
Qed.

Lemma get_pokemon_name_trimmed_witness :
  Mac.capture_window_mac None (Some (1224, 339, 145, 20)) = None ∧
  Mac.get_pokemon_name (H := reads " Garchomp ") None (1224, 339, 145, 20)
    = Returned "".
Proof.
  split; [reflexivity|].
  exact (proj1 (proj2 (get_pokemon_name_trimmed (H := reads " Garchomp ") None
                         (1224, 339, 145, 20))) eq_refl).
Defined.

Example get_pokemon_name_strips :
  Mac.get_pokemon_name (H := reads "  Garchomp
") (Some [[(0, 0, 0, 255)]]) (0, 0, 1, 1) = Returned "Garchomp".
Proof. reflexivity. Qed.

(** ** Configuration *)

(** C10.  With no configuration file on disk, loading returns the empty
    record without raising, and start-up then holds exactly the four
    built-in defaults. *)
Theorem missing_config_gives_defaults :
  Mac.load_config Mac.Absent = Returned ∅ ∧
  Mac.init_config_data Mac.Absent = Returned builtin_defaults ∧
  builtin_defaults !! "pokeball_region"
    = Some (JList [JInt 1380; JInt 330; JInt 60; JInt 20]) ∧
  builtin_defaults !! "name_region"
    = Some (JList [JInt 1224; JInt 339; JInt 145; JInt 20]) ∧
  builtin_defaults !! "target_pokemons"
    = Some (JList [JStr "Electivire"; JStr "Xurkitree"; JStr "Garchomp"]) ∧
  builtin_defaults !! "preferred_move" = Some (JStr "1") ∧
  dom builtin_defaults
    = ({["pokeball_region"; "name_region"; "target_pokemons"; "preferred_move"]}
       : gset string).
Proof.
  split; [reflexivity|].
  split.
  { unfold Mac.init_config_data, Mac.load_config. f_equal. }
  repeat split; vm_compute; reflexivity.
Qed.

(** ** Calibration *)

Lemma sorted_pair (a b : Z) :
  Mac.sorted [a; b] = [Z.min a b; Z.max a b].
Proof.
  unfold Mac.sorted. simpl. destruct (a <? b) eqn:E; f_equal; try f_equal; lia.
Qed.

Lemma drag_result (st : Mac.calibration) (rect_id x1 y1 x2 y2 : Z) :
  0 <= Mac.region_index st < Z.of_nat (length (Mac.result st)) →
  drag st rect_id x1 y1 x2 y2 =
    Returned (<[Z.to_nat (Mac.region_index st) := Some (normalized x1 y1 x2 y2)]>
                (Mac.result st)).
Proof.
  intros Hidx. unfold drag, Mac.on_button_release, Mac.on_button_press.
  rewrite !sorted_pair. cbn [Mac.start_x Mac.start_y Mac.region_index Mac.result].
  replace ((0 <=? Mac.region_index st) &&
           (Mac.region_index st <? Z.of_nat (length (Mac.result st)))) with true
    by (symmetry; apply andb_true_intro; split; lia).
  assert (Hrect : (Z.min x1 x2, Z.min y1 y2, Z.max x1 x2 - Z.min x1 x2,
                   Z.max y1 y2 - Z.min y1 y2) = normalized x1 y1 x2 y2).
  { unfold normalized. repeat f_equal; lia. }
  destruct (Mac.region_index st =? 1); simpl; by rewrite Hrect.
Qed.

Lemma release_keeps_calibrating (st : Mac.calibration) (x y : Z) :
  calibrating st →
  ∃ st' ev, Mac.on_button_release st x y = Returned (st', ev) ∧ calibrating st'.
Proof.
  intros [Hlen Hidx]. unfold Mac.on_button_release. rewrite !sorted_pair.
  replace ((0 <=? Mac.region_index st) &&
           (Mac.region_index st <? Z.of_nat (length (Mac.result st)))) with true
    by (symmetry; apply andb_true_intro; split; lia).
  destruct Hidx as [-> | ->]; simpl; eexists _, _; (split; [reflexivity|]);
    unfold calibrating; simpl; rewrite length_insert; auto.
Qed.

(** C7.  A press at (x1,y1) followed by a release at (x2,y2) records
    the rectangle with x = min(x1,x2), y = min(y1,y2), width = |x2-x1|,
    height = |y2-y1|; the three other drags over the same corners
    record the same rectangle.  The window is then ready for the next
    drag, or destroyed after the second. *)
Theorem calibration_normalizes
    (st : Mac.calibration) (rect_id x1 y1 x2 y2 : Z)
    (Hst : calibrating st) :
  drag st rect_id x1 y1 x2 y2 =
    Returned (<[Z.to_nat (Mac.region_index st) :=
                  Some (Z.min x1 x2, Z.min y1 y2, Z.abs (x2 - x1), Z.abs (y2 - y1))]>
                (Mac.result st)) ∧
  drag st rect_id x2 y2 x1 y1 = drag st rect_id x1 y1 x2 y2 ∧
  drag st rect_id x1 y2 x2 y1 = drag st rect_id x1 y1 x2 y2 ∧
  drag st rect_id x2 y1 x1 y2 = drag st rect_id x1 y1 x2 y2 ∧
  ∃ st' ev,
    Mac.on_button_release (Mac.on_button_press st x1 y1 rect_id) x2 y2
      = Returned (st', ev) ∧
    calibrating st' ∧
    Mac.destroyed st' = (Mac.region_index st =? 1) || Mac.destroyed st.
Proof.
  assert (Hidx : 0 <= Mac.region_index st < Z.of_nat (length (Mac.result st)))
    by (destruct Hst as [-> [-> | ->]]; simpl; lia).
  rewrite !drag_result by exact Hidx.
  split; [reflexivity|].
  assert (Hswap : ∀ a b c d, (a = x1 ∧ c = x2 ∨ a = x2 ∧ c = x1) →
                             (b = y1 ∧ d = y2 ∨ b = y2 ∧ d = y1) →
                             normalized a b c d = normalized x1 y1 x2 y2).
  { intros a b c d Hx Hy. unfold normalized.
    replace (Z.min a c) with (Z.min x1 x2) by lia.
    replace (Z.min b d) with (Z.min y1 y2) by lia.
    replace (Z.abs (c - a)) with (Z.abs (x2 - x1)) by lia.
    replace (Z.abs (d - b)) with (Z.abs (y2 - y1)) by lia.
    reflexivity. }
  do 3 (split; [rewrite Hswap; auto|]).
  destruct (release_keeps_calibrating (Mac.on_button_press st x1 y1 rect_id) x2 y2)
    as (st' & ev & Hrel & Hcal); [exact Hst|].
  exists st', ev. split; [exact Hrel|]. split; [exact Hcal|].
  revert Hrel. unfold Mac.on_button_release. rewrite !sorted_pair.
  cbn [Mac.start_x Mac.start_y Mac.region_index Mac.result Mac.on_button_press
       Mac.destroyed].
  replace ((0 <=? Mac.region_index st) &&
           (Mac.region_index st <? Z.of_nat (length (Mac.result st)))) with true
    by (symmetry; apply andb_true_intro; split; lia).
  destruct (Mac.region_index st =? 1); intros [= <- _]; reflexivity.
Qed.

Lemma calibration_normalizes_witness :
  calibrating Mac.calibration_start ∧
  drag Mac.calibration_start 1 70 40 10 25
    = Returned [Some (10, 25, 60, 15); None] ∧
  drag Mac.calibration_start 1 10 25 70 40
    = drag Mac.calibration_start 1 70 40 10 25.
Proof.
  assert (Hst : calibrating Mac.calibration_start) by (split; [reflexivity | by left]).
  pose proof (calibration_normalizes Mac.calibration_start 1 70 40 10 25 Hst)
    as (H1 & H2 & _).
  split; [exact Hst|]. split; [exact H1 | exact H2].
Defined.

Example calibration_session :
  let drags :=
    Mac.Canvas <$>
      [Mac.ButtonPress 70 40 1; Mac.Motion 30 30; Mac.ButtonRelease 10 25;
       Mac.ButtonPress 5 90 2; Mac.ButtonRelease 50 60; Mac.ButtonPress 1 1 3] in
  Mac.calibrate_two_regions (Some [[(0, 0, 0, 255)]]) drags = None ∧
  Mac.calibrate_two_regions (Some [[(0, 0, 0, 255)]]) (drags ++ [Mac.Root_destroyed])
  = Some (Some (10, 25, 60, 15), Some (5, 60, 45, 30),
          [log_put (Msg_calibrated 1 10 25 60 15);
           log_put (Msg_calibrated 2 5 60 45 30); calib_win_destroy], false) ∧
  Mac.calibrate_two_regions None drags
  = Some (None, None, [log_put Msg_could_not_capture], true).
Proof. repeat split. Qed.

Example two_boxes_then_destroy :
  match Mac.on_button_release
          (Mac.on_button_press Mac.calibration_start 70 40 1) 10 25 with
  | Returned (st1, _) =>
      match Mac.on_button_release (Mac.on_button_press st1 5 90 2) 50 60 with
      | Returned (st2, ev) =>
          Mac.result st2 = [Some (10, 25, 60, 15); Some (5, 60, 45, 30)] ∧
          Mac.destroyed st2 = true ∧
          ev = [log_put (Msg_calibrated 2 5 60 45 30); calib_win_destroy]
      | Raised _ => False
      end
  | Raised _ => False
  end.
Proof. vm_compute. auto. Qed.

(** ** The name matcher *)

Lemma chars_nil_iff (s : string) : chars s = [] ↔ s = "".
Proof. destruct s; simpl; split; congruence. Qed.

Lemma lower_nil_iff (s : string) : lower s = "" ↔ s = "".
Proof.
  unfold lower. destruct s as [|c s]; simpl; split; congruence.
Qed.

Lemma find_longest_match_nil (b : list ascii) (b2j : gmap ascii (list Z)) (bhi : Z) :
  difflib.find_longest_match [] b b2j 0 0 0 bhi = (0, 0, 0).
Proof. reflexivity. Qed.

Lemma get_matching_blocks_nil (b : list ascii) :
  difflib.get_matching_blocks [] b = [(0, Z.of_nat (length b), 0)].
Proof.
  unfold difflib.get_matching_blocks.
  change (2 * length (@nil ascii) + 1)%nat with 1%nat.
  unfold difflib.queue_loop. rewrite find_longest_match_nil. reflexivity.
Qed.

Lemma ratio_of_empty (t : string) :
  difflib.ratio "" t = if bool_decide (t = "") then 1%Q
                       else Qmake 0 (Z.to_pos (Z.of_nat (length (chars t)))).
Proof.
  unfold difflib.ratio. change (chars "") with (@nil ascii).
  rewrite get_matching_blocks_nil. simpl.
  unfold difflib.calculate_ratio.
  destruct t as [|c t]; [reflexivity|].
  rewrite bool_decide_eq_false_2 by discriminate.
  simpl. reflexivity.
Qed.

Lemma is_similar_empty (t : string) :
  Mac._is_similar "" t = bool_decide (t = "").
Proof.
  unfold Mac._is_similar, is_similar. change (lower "") with ""%string.
  rewrite ratio_of_empty.
  destruct (decide (t = "")) as [->|Hne].
  - reflexivity.
  - rewrite (bool_decide_eq_false_2 (t = "")) by exact Hne.
    rewrite bool_decide_eq_false_2 by (by rewrite lower_nil_iff).
    reflexivity.
Qed.

Lemma empty_text_match_iff (targets : list string) :
  existsb (Mac._is_similar "") targets = bool_decide ("" ∈ targets).
Proof.
  induction targets as [|t targets IH]; cbn [existsb].
  - symmetry. apply bool_decide_eq_false_2, not_elem_of_nil.
  - rewrite IH, is_similar_empty.
    destruct (decide (t = "")) as [->|Hne].
    + rewrite (bool_decide_eq_true_2 ("" = "")) by reflexivity.
      rewrite (bool_decide_eq_true_2 ("" ∈ "" :: targets)) by apply list_elem_of_here.
      reflexivity.
    + rewrite (bool_decide_eq_false_2 (t = "")) by exact Hne.
      cbn [orb]. apply bool_decide_ext. rewrite elem_of_cons.
      split; [by right | intros [?|?]; [congruence | done]].
Qed.

(** C5 (as amended).  For every target list none of whose candidates is
    the empty string, the empty recognised text matches no candidate:
    its similarity ratio to each of them is 0, below the 0.7 threshold. *)
Theorem empty_text_matches_no_named_candidate
    (targets : list string) (Hnamed : "" ∉ targets) :
  existsb (Mac._is_similar "") targets = false ∧
  Forall (λ t, (difflib.ratio (lower "") (lower t) == 0)%Q ∧
               Mac._is_similar "" t = false) targets.
Proof.
  split.
  - rewrite empty_text_match_iff. by apply bool_decide_eq_false_2.
  - apply Forall_forall. intros t Ht.
    assert (Hne : t ≠ "") by (intros ->; contradiction).
    split.
    + change (lower "") with ""%string. rewrite ratio_of_empty.
      rewrite bool_decide_eq_false_2 by (by rewrite lower_nil_iff).
      reflexivity.
    + rewrite is_similar_empty. by apply bool_decide_eq_false_2.
Qed.

Lemma empty_text_matches_no_named_candidate_witness :
  ("" ∉ ["Electivire"; "Xurkitree"; "Garchomp"]) ∧
  existsb (Mac._is_similar "") ["Electivire"; "Xurkitree"; "Garchomp"] = false.
Proof.
  assert (Hnamed : "" ∉ ["Electivire"; "Xurkitree"; "Garchomp"]).
  { rewrite !not_elem_of_cons. repeat split; try discriminate. apply not_elem_of_nil. }
  split; [exact Hnamed|].
  exact (proj1 (empty_text_matches_no_named_candidate _ Hnamed)).
Defined.

(** C5 as stated fails on a non-empty target list that holds the empty
    string: two empty sequences have ratio 1.0, so the empty text
    matches that candidate. *)
Lemma empty_text_matches_empty_candidate :
  [""] ≠ [] ∧
  difflib.ratio (lower "") (lower "") = 1%Q ∧
  existsb (Mac._is_similar "") [""] = true.
Proof. split; [discriminate | split; reflexivity]. Qed.

Example similar_despite_case : Mac._is_similar "Electivire" "electivire" = true.
Proof. vm_compute. reflexivity. Qed.

Example dissimilar_names : Mac._is_similar "Electivire" "Xurkitree" = false.
Proof. vm_compute. reflexivity. Qed.

Example similar_misread : Mac._is_similar "Garchmp" "Garchomp" = true.
Proof. vm_compute. reflexivity. Qed.

(** ** Starting the automation *)

Lemma start_bot_launch_iff (self : Mac.gui.BotGUI) :
  is_Some (Mac.gui.start_bot self).2 ↔
  Mac.gui.window_missing self = false ∧
  (∃ pb, Mac.gui.int4 (Mac.gui.pb_x self) (Mac.gui.pb_y self)
                      (Mac.gui.pb_w self) (Mac.gui.pb_h self) = Returned pb) ∧
  (∃ nm, Mac.gui.int4 (Mac.gui.nm_x self) (Mac.gui.nm_y self)
                      (Mac.gui.nm_w self) (Mac.gui.nm_h self) = Returned nm).
Proof.
  unfold Mac.gui.start_bot.
  destruct (Mac.gui.window_missing self); cbn [Mac.gui.with_flags Mac.gui.pb_x
    Mac.gui.pb_y Mac.gui.pb_w Mac.gui.pb_h Mac.gui.nm_x Mac.gui.nm_y Mac.gui.nm_w
    Mac.gui.nm_h].
  { simpl. split; [intros [? [=]] | intros [[=] _]]. }
  destruct (Mac.gui.int4 (Mac.gui.pb_x self) _ _ _) as [pb|e].
  2:{ simpl. split; [intros [? [=]] | intros (_ & [? [=]] & _)]. }
  destruct (Mac.gui.int4 (Mac.gui.nm_x self) _ _ _) as [nm|e].
  2:{ simpl. split; [intros [? [=]] | intros (_ & _ & [? [=]])]. }
  simpl. split; eauto.
Qed.

(** C4 (as amended).  Starting is refused, with one logged error and
    no thread, exactly when the game window has not been found or one
    of the eight region entries is not an integer literal.  Entries
    that are integers are accepted whatever their values: the thread is
    launched with the regions as typed, a zero width or height
    included. *)
Theorem start_bot_checks_integers_only
    (self : Mac.gui.BotGUI) (pb nm : region)
    (Hwindow : Mac.gui.window_missing self = false)
    (Hpb : Mac.gui.int4 (Mac.gui.pb_x self) (Mac.gui.pb_y self)
                        (Mac.gui.pb_w self) (Mac.gui.pb_h self) = Returned pb)
    (Hnm : Mac.gui.int4 (Mac.gui.nm_x self) (Mac.gui.nm_y self)
                        (Mac.gui.nm_w self) (Mac.gui.nm_h self) = Returned nm) :
  (Mac.gui.start_bot self).2 =
    Some {| Mac.pokeball_region := pb; Mac.name_region := nm;
            Mac.target_pokemons := Mac.gui.target_pokemons self;
            Mac.move_choice := Mac.gui.move_choice_var self |} ∧
  (∃ cfg, (Mac.gui.start_bot self).1.2 = [log_put Msg_starting_bot; save_config cfg]) ∧
  (∀ other : Mac.gui.BotGUI,
     (Mac.gui.start_bot other).2 = None ↔
     ¬ (Mac.gui.window_missing other = false ∧
        (∃ pb', Mac.gui.int4 (Mac.gui.pb_x other) (Mac.gui.pb_y other)
                  (Mac.gui.pb_w other) (Mac.gui.pb_h other) = Returned pb') ∧
        (∃ nm', Mac.gui.int4 (Mac.gui.nm_x other) (Mac.gui.nm_y other)
                  (Mac.gui.nm_w other) (Mac.gui.nm_h other) = Returned nm'))) ∧
  (∀ other : Mac.gui.BotGUI,
     (Mac.gui.start_bot other).2 = None →
     (Mac.gui.start_bot other).1.2 = [log_put Msg_find_window_first] ∨
     (Mac.gui.start_bot other).1.2 = [log_put Msg_invalid_integer]).
Proof.
  split; [|split; [|split]].
  - unfold Mac.gui.start_bot. rewrite Hwindow.
    cbn [Mac.gui.with_flags Mac.gui.pb_x Mac.gui.pb_y Mac.gui.pb_w Mac.gui.pb_h
         Mac.gui.nm_x Mac.gui.nm_y Mac.gui.nm_w Mac.gui.nm_h].
    rewrite Hpb, Hnm. reflexivity.
  - unfold Mac.gui.start_bot. rewrite Hwindow.
    cbn [Mac.gui.with_flags Mac.gui.pb_x Mac.gui.pb_y Mac.gui.pb_w Mac.gui.pb_h
         Mac.gui.nm_x Mac.gui.nm_y Mac.gui.nm_w Mac.gui.nm_h].
    rewrite Hpb, Hnm. eexists. reflexivity.
  - intros other. rewrite <- start_bot_launch_iff.
    destruct (Mac.gui.start_bot other).2 as [t|].
    + split; [discriminate | intros Hno; exfalso; apply Hno; eauto].
    + split; [intros _ [? [=]] | reflexivity].
  - intros other. unfold Mac.gui.start_bot.
    destruct (Mac.gui.window_missing other); [auto|].
    cbn [Mac.gui.with_flags Mac.gui.pb_x Mac.gui.pb_y Mac.gui.pb_w Mac.gui.pb_h
         Mac.gui.nm_x Mac.gui.nm_y Mac.gui.nm_w Mac.gui.nm_h].
    destruct (Mac.gui.int4 (Mac.gui.pb_x other) _ _ _); [|auto].
    destruct (Mac.gui.int4 (Mac.gui.nm_x other) _ _ _); [|auto].
    simpl. discriminate.
Qed.

Lemma start_bot_checks_integers_only_witness :
  Mac.gui.window_missing zero_width_gui = false ∧
  (Mac.gui.start_bot zero_width_gui).2 =
    Some {| Mac.pokeball_region := (1380, 330, 0, 20);
            Mac.name_region := (1224, 339, 145, 20);
            Mac.target_pokemons := ["Garchomp"];
            Mac.move_choice := "1" |}.
Proof.
  split; [vm_compute; reflexivity|].
  exact (proj1 (start_bot_checks_integers_only zero_width_gui
                  (1380, 330, 0, 20) (1224, 339, 145, 20)
                  ltac:(vm_compute; reflexivity) ltac:(vm_compute; reflexivity)
                  ltac:(vm_compute; reflexivity))).
Defined.

(** C4 as stated fails: the indicator region has zero width, and
    [start_bot] reports no error and launches the loop with it. *)
Lemma degenerate_region_is_launched :
  ∃ t cfg,
    Mac.gui.start_bot zero_width_gui
      = (Mac.gui.with_flags zero_width_gui cfg,
         [log_put Msg_starting_bot; save_config cfg], Some t) ∧
    degenerate (Mac.pokeball_region t).
Proof.
  eexists _, _. split; [vm_compute; reflexivity|].
  left. reflexivity.
Qed.

Example int_literals :
  Mac.gui.int " 42 " = Returned 42 ∧ Mac.gui.int "-7" = Returned (-7) ∧
  Mac.gui.int "1_000" = Returned 1000 ∧ Mac.gui.int "" = Raised ValueError ∧
  Mac.gui.int "12px" = Raised ValueError ∧ Mac.gui.int "1__0" = Raised ValueError ∧
  Mac.gui.int "0" = Returned 0.
Proof. vm_compute. repeat split. Qed.

(** ** The automation loop *)

Lemma press_right_arrow (hold : Q) :
  Mac.press_key_mac "right_arrow" hold
  = [CGEventPost 124 true; sleep hold; CGEventPost 124 false].
Proof. reflexivity. Qed.

Lemma press_left_arrow (hold : Q) :
  Mac.press_key_mac "left_arrow" hold
  = [CGEventPost 123 true; sleep hold; CGEventPost 123 false].
Proof. reflexivity. Qed.

(** The key the next movement step injects, and the direction cell
    after it. *)
Lemma move_in_bushes_eq (last_dir : Z) :
  Mac.move_in_bushes last_dir =
    if last_dir =? 0
    then ([CGEventPost 124 true; sleep Mac.default_hold_time; CGEventPost 124 false], 1)
    else ([CGEventPost 123 true; sleep Mac.default_hold_time; CGEventPost 123 false], 0).
Proof.
  unfold Mac.move_in_bushes. destruct (last_dir =? 0);
    by rewrite ?press_right_arrow, ?press_left_arrow.
Qed.


Lemma watchdog_events (st : Mac.locals) (now : Q) :
  (Mac.watchdog st now).2 = [] ∨
  (Mac.watchdog st now).2
  = [log_put Msg_check_window; afplay; log_put Msg_no_encounters_beep].
Proof.
  unfold Mac.watchdog.
  destruct (Qle_bool _ _); [|by left].
  destruct (Qle_bool _ _); [by right | by left].
Qed.

Lemma watchdog_keeps (st : Mac.locals) (now : Q) :
  Mac.last_dir (Mac.watchdog st now).1 = Mac.last_dir st ∧
  Mac.encounter_count (Mac.watchdog st now).1 = Mac.encounter_count st ∧
  Mac.last_encounter_time (Mac.watchdog st now).1 = Mac.last_encounter_time st.
Proof. unfold Mac.watchdog. destruct (Qle_bool _ _); auto. Qed.


(** The ways a pass that is neither stopped nor paused can go. *)
Lemma tick_cases `{Recognizer} (self : Mac.BotThread) (st : Mac.locals)
    (env : Mac.tick_env) :
  Mac.stop_is_set env = false → Mac.pause_is_set env = false →
  let t := Mac.clock_at_encounter env in
  let now := Mac.clock_at_watchdog env in
  let seen := [reddish_checked true; time_time At_encounter t;
               log_put (Msg_encountered (Mac.encounter_count st + 1))] in
  Mac.tick self st env =
    match checked self env with
    | Raised e => (Mac.Raises e, stepped st, movement st)
    | Returned false =>
        (Mac.Next, (Mac.watchdog (stepped st) now).1,
         movement st ++ [reddish_checked false; time_time At_watchdog now]
           ++ (Mac.watchdog (stepped st) now).2 ++ [sleep (1 # 10)])
    | Returned true =>
        match named self env with
        | Raised e => (Mac.Raises e, counted (stepped st) t, movement st ++ seen)
        | Returned name =>
            if existsb (Mac._is_similar name) (Mac.target_pokemons self) then
              (Mac.Break, counted (stepped st) t,
               movement st ++ seen
                 ++ [log_put (Msg_name name); afplay;
                     log_put (Msg_target_stopping name)])
            else
              (Mac.Next, (Mac.watchdog (counted (stepped st) t) now).1,
               movement st ++ seen
                 ++ [log_put (Msg_name name);
                     log_put (Msg_defeating (Mac.move_choice self))]
                 ++ Mac.defeat_wild_pokemon self
                 ++ [sleep (1 # 10); time_time At_watchdog now]
                 ++ (Mac.watchdog (counted (stepped st) t) now).2
                 ++ [sleep (1 # 10)])
        end
    end.
Proof.
  intros Hstop Hpause. cbn zeta.
  unfold Mac.tick, checked, named. rewrite Hstop, Hpause, move_in_bushes_eq.
  unfold movement, stepped, counted.
  destruct (Mac.last_dir st =? 0);
    destruct (Mac.is_reddish_in_region _ _ _ _) as [[|]|e1];
    try destruct (Mac.get_pokemon_name _ _) as [name|e2];
    try destruct (existsb _ _);
    try reflexivity;
    cbn [Mac.encounter_count Mac.last_encounter_time Mac.next_check_time Mac.last_dir];
    match goal with
    | |- context [Mac.watchdog ?s ?n] => destruct (Mac.watchdog s n) as [st' barked]
    end; cbn [fst snd Mac._log Mac._beep]; rewrite <- ?app_assoc; reflexivity.
Qed.





(** A pass whose name region has no width: the encounter is counted,
    the name reader raises, and the pass has no watchdog check. *)
Example empty_name_region_skips_watchdog :
  let self := {| Mac.pokeball_region := (0, 0, 1, 1);
                 Mac.name_region := (0, 0, 0, 1);
                 Mac.target_pokemons := ["Garchomp"];
                 Mac.move_choice := "1" |} in
  let env := {| Mac.stop_is_set := false; Mac.pause_is_set := false;
                Mac.window_at_check := Some [[(200, 50, 50, 255)]];
                Mac.clock_at_encounter := 3;
                Mac.window_at_name := Some [[(255, 255, 255, 255)]];
                Mac.clock_at_watchdog := 4 |} in
  Mac.tick (H := reads "Rattata") self (Mac.initial 0) env =
    (Mac.Raises cv2_error,
     {| Mac.encounter_count := 1; Mac.last_encounter_time := 3;
        Mac.next_check_time := 3 + 10; Mac.last_dir := 1 |},
     [CGEventPost 124 true; sleep Mac.default_hold_time; CGEventPost 124 false;
      reddish_checked true; time_time At_encounter 3;
      log_put (Msg_encountered 1)]).
Proof. vm_compute. reflexivity. Qed.








Lemma tally_app (f : event → bool) (l1 l2 : list event) :
  tally f (l1 ++ l2) = (tally f l1 + tally f l2)%nat.
Proof. unfold tally. by rewrite filter_app, length_app. Qed.





Example windows_script_starts_left :
  let env := {| Plus.window_at_check := [[(0, 0, 0)]];
                Plus.window_at_name := [[(0, 0, 0)]] |} in
  match Plus.run_ticks (H := reads "Rattata") Plus.initial_direction [env; env; env] with
  | Returned (ended, d, tr) =>
      ended = false ∧ d = "left" ∧ directional_keys tr = [37; 39; 37]
  | Raised _ => False
  end.
Proof. vm_compute. repeat split. Qed.

(** ** The watchdog *)

(** A triggered check moves the deadline to ten seconds after the
    reading, whether or not it alerts. *)
Lemma watchdog_advances (st : Mac.locals) (now : Q) :
  (Mac.next_check_time st <= now)%Q →
  Mac.next_check_time (Mac.watchdog st now).1 = (now + 10)%Q ∧
  ((Mac.watchdog st now).2 ≠ [] ↔ (10 <= now - Mac.last_encounter_time st)%Q).
Proof.
  intros Hdue. apply Qle_bool_iff in Hdue.
  unfold Mac.watchdog. rewrite Hdue. split; [reflexivity|].
  destruct (Qle_bool 10 _) eqn:E; simpl.
  - apply Qle_bool_iff in E. split; [by intros _ | discriminate].
  - split; [done|]. intros Hle. apply Qle_bool_iff in Hle. congruence.
Qed.

(** One quiet pass: the deadline afterwards and the alerts it adds. *)
Lemma quiet_tick_alerts `{Recognizer} (self : Mac.BotThread) (st : Mac.locals)
    (env : Mac.tick_env) (n0 : Q) (rest : list event) :
  quiet self env →
  (Mac.last_encounter_time st + 10 <= Mac.next_check_time st)%Q →
  let r := Mac.tick self st env in
  let now := Mac.clock_at_watchdog env in
  r.1.1 = Mac.Next ∧
  Mac.last_encounter_time r.1.2 = Mac.last_encounter_time st ∧
  if Mac.pause_is_set env then
    Mac.next_check_time r.1.2 = Mac.next_check_time st ∧
    alert_times_from n0 (r.2 ++ rest) = alert_times_from n0 rest
  else if Qle_bool (Mac.next_check_time st) now then
    Mac.next_check_time r.1.2 = (now + 10)%Q ∧
    alert_times_from n0 (r.2 ++ rest) = now :: alert_times_from now rest
  else
    Mac.next_check_time r.1.2 = Mac.next_check_time st ∧
    alert_times_from n0 (r.2 ++ rest) = alert_times_from now rest.
Proof.
  intros [Hstop Hq] Hinv. cbn zeta. unfold Mac.tick. rewrite Hstop.
  destruct (Mac.pause_is_set env) eqn:Hpause; [by repeat split|].
  destruct Hq as [[=]|Hq]. rewrite Hq, move_in_bushes_eq.
  unfold Mac.watchdog.
  destruct (Mac.last_dir st =? 0);
    cbn [Mac.next_check_time Mac.last_encounter_time Mac.encounter_count Mac.last_dir];
    destruct (Qle_bool (Mac.next_check_time st) (Mac.clock_at_watchdog env)) eqn:Hdue;
    try (apply Qle_bool_iff in Hdue;
         assert (Hold : Qle_bool 10 (Mac.clock_at_watchdog env - Mac.last_encounter_time st)
                        = true) by (apply Qle_bool_iff; lra);
         rewrite Hold);
    repeat split.
Qed.

Lemma readings_cons (env : Mac.tick_env) (envs : list Mac.tick_env) :
  readings (env :: envs)
  = if Mac.pause_is_set env then readings envs
    else Mac.clock_at_watchdog env :: readings envs.
Proof.
  unfold readings. rewrite filter_cons.
  destruct (Mac.pause_is_set env); by case_decide.
Qed.

Lemma readings_app (l1 l2 : list Mac.tick_env) :
  readings (l1 ++ l2) = readings l1 ++ readings l2.
Proof. unfold readings. by rewrite filter_app, fmap_app. Qed.

(** The alerts of a run of quiet passes are the ones the deadline rule
    gives, and the loop is still running after them. *)
Lemma quiet_run_alerts `{Recognizer} (self : Mac.BotThread) (envs : list Mac.tick_env) :
  Forall (quiet self) envs →
  ∀ (st : Mac.locals) (n0 : Q),
    (Mac.last_encounter_time st + 10 <= Mac.next_check_time st)%Q →
    (Mac.run_ticks self st envs).1.1 = Mac.Running ∧
    alert_times_from n0 (Mac.run_ticks self st envs).2
    = due (Mac.next_check_time st) (readings envs).
Proof.
  induction 1 as [|env envs Hq _ IH]; intros st n0 Hinv; [by split|].
  cbn [Mac.run_ticks]. rewrite readings_cons. cbn [due].
  pose proof (λ rest, quiet_tick_alerts self st env n0 rest Hq Hinv) as Htick.
  cbn zeta in Htick.
  destruct (Mac.tick self st env) as [[c st'] ev]. cbn [fst snd] in Htick.
  destruct (Htick []) as (-> & Hlast & _).
  assert (Hinv' : (Mac.last_encounter_time st' + 10 <= Mac.next_check_time st')%Q).
  { destruct (Htick []) as (_ & _ & Hcase). rewrite Hlast.
    destruct (Mac.pause_is_set env); [destruct Hcase as [-> _]; exact Hinv|].
    destruct (Qle_bool _ _) eqn:Hdue; destruct Hcase as [-> _]; [|exact Hinv].
    apply Qle_bool_iff in Hdue. lra. }
  pose proof (IH st') as IH'.
  destruct (Mac.run_ticks self st' envs) as [[r st''] ev']. cbn [fst snd] in *.
  destruct (Htick ev') as (_ & _ & Hcase).
  destruct (Mac.pause_is_set env).
  { destruct Hcase as [Hn ->]. rewrite <- Hn. by apply IH'. }
  cbn [due]. destruct (Qle_bool _ _).
  - destruct Hcase as [Hn ->]. rewrite <- Hn.
    split; [by apply (IH' 0%Q)|]. f_equal. by apply IH'.
  - destruct Hcase as [Hn ->]. rewrite <- Hn. by apply IH'.
Qed.

Lemma due_spaced (rs : list Q) : ∀ deadline : Q, spaced deadline (due deadline rs).
Proof.
  induction rs as [|now rs IH]; intros deadline; cbn [due]; [exact I|].
  destruct (Qle_bool deadline now) eqn:E; [|apply IH].
  split; [by apply Qle_bool_iff | apply IH].
Qed.

Lemma due_skip (rs rest : list Q) (deadline : Q) :
  Forall (λ r, (r < deadline)%Q) rs → due deadline (rs ++ rest) = due deadline rest.
Proof.
  induction 1 as [|r rs Hr _ IH]; [reflexivity|].
  cbn [app due]. destruct (Qle_bool deadline r) eqn:E; [|exact IH].
  apply Qle_bool_iff in E. lra.
Qed.

Lemma before_readings (t : Q) (envs : list Mac.tick_env) :
  Forall (before t) envs → Forall (λ r, (r < t)%Q) (readings envs).
Proof.
  induction 1 as [|env envs Hb _ IH]; [constructor|].
  rewrite readings_cons. destruct Hb as [-> | Hlt]; [exact IH|].
  destruct (Mac.pause_is_set env); [exact IH | by constructor].
Qed.

(** C2 (as amended).  In a run from [t0] in which no pass sees an
    encounter, the alerts are those of the deadline rule started at
    [t0 + 10], applied to the clock readings of the passes: none before
    [t0 + 10], each at least ten seconds after the one before (so the
    second not before [t0 + 20]), and the loop keeps running.  The
    alerts are at [t0 + 10] and at [t0 + 20] only when passes read the
    clock exactly then: when the first pass whose reading reaches
    [t0 + 10] reads exactly [t0 + 10], and the first one after it to
    reach [t0 + 20] reads exactly [t0 + 20].  Every check that triggers
    moves the deadline to its reading plus ten, whether or not it
    alerts. *)
Theorem watchdog_alerts `{Recognizer}
    (self : Mac.BotThread) (t0 : Q) (envs : list Mac.tick_env)
    (Hquiet : Forall (quiet self) envs) :
  (Mac.run self t0 envs).1.1 = Mac.Running ∧
  alert_times (Mac.run self t0 envs).2 = due (t0 + 10) (readings envs) ∧
  spaced (t0 + 10) (alert_times (Mac.run self t0 envs).2) ∧
  (∀ pre e1 mid e2,
     envs = pre ++ e1 :: mid ++ [e2] →
     Forall (before (t0 + 10)) pre →
     Mac.pause_is_set e1 = false → (Mac.clock_at_watchdog e1 == t0 + 10)%Q →
     Forall (before (t0 + 20)) mid →
     Mac.pause_is_set e2 = false → (Mac.clock_at_watchdog e2 == t0 + 20)%Q →
     alert_times (Mac.run self t0 envs).2
     = [Mac.clock_at_watchdog e1; Mac.clock_at_watchdog e2]) ∧
  (∀ (st : Mac.locals) (now : Q),
     (Mac.next_check_time st <= now)%Q →
     Mac.next_check_time (Mac.watchdog st now).1 = (now + 10)%Q ∧
     ((Mac.watchdog st now).2 ≠ [] ↔ (10 <= now - Mac.last_encounter_time st)%Q)).
Proof.
  assert (Hinv : (Mac.last_encounter_time (Mac.initial t0) + 10
                  <= Mac.next_check_time (Mac.initial t0))%Q) by (simpl; lra).
  pose proof (quiet_run_alerts self envs Hquiet (Mac.initial t0) 0%Q Hinv)
    as [Hrun Halerts].
  assert (Hdue : alert_times (Mac.run self t0 envs).2 = due (t0 + 10) (readings envs)).
  { unfold Mac.run, alert_times.
    destruct (Mac.run_ticks self (Mac.initial t0) envs) as [[r st'] ev].
    exact Halerts. }
  split.
  { unfold Mac.run.
    destruct (Mac.run_ticks self (Mac.initial t0) envs) as [[r st'] ev]. exact Hrun. }
  split; [exact Hdue|].
  split; [rewrite Hdue; apply due_spaced|].
  split; [|exact watchdog_advances].
  intros pre e1 mid e2 -> Hpre He1 Hr1 Hmid He2 Hr2.
  rewrite Hdue, readings_app, readings_cons, He1, readings_app.
  rewrite (readings_cons e2 []), He2.
  rewrite due_skip by (by apply before_readings).
  cbn [due].
  replace (Qle_bool (t0 + 10) (Mac.clock_at_watchdog e1)) with true
    by (symmetry; apply Qle_bool_iff; lra).
  f_equal. rewrite due_skip.
  - cbn [due].
    replace (Qle_bool (Mac.clock_at_watchdog e1 + 10) (Mac.clock_at_watchdog e2))
      with true by (symmetry; apply Qle_bool_iff; lra).
    reflexivity.
  - eapply Forall_impl; [by apply before_readings|].
    intros r Hr. simpl in Hr. lra.
Qed.

Lemma watchdog_alerts_witness :
  let self := {| Mac.pokeball_region := (1380, 330, 60, 20);
                 Mac.name_region := (1224, 339, 145, 20);
                 Mac.target_pokemons := ["Garchomp"];
                 Mac.move_choice := "1" |} in
  let pass (now : Q) :=
    {| Mac.stop_is_set := false; Mac.pause_is_set := false;
       Mac.window_at_check := Some [[(0, 0, 0, 255)]];
       Mac.clock_at_encounter := now;
       Mac.window_at_name := None;
       Mac.clock_at_watchdog := now |} in
  let envs := [pass 5%Q; pass 10%Q; pass 15%Q; pass (199 # 10)%Q; pass 20%Q;
               pass 25%Q] in
  Forall (quiet self) envs ∧
  alert_times (Mac.run (H := reads "") self 0 envs).2 = [10%Q; 20%Q].
Proof.
  intros self pass envs.
  assert (Hquiet : Forall (quiet self) envs).
  { repeat (constructor; [split; [reflexivity | right; reflexivity]|]).
    constructor. }
  split; [exact Hquiet|].
  pose proof (watchdog_alerts (H := reads "") self 0 envs Hquiet) as (_ & Hdue & _).
  rewrite Hdue. reflexivity.
Defined.

(** C2 as stated fails: in a run from [t0 = 0] in which no pass sees
    an encounter and the passes read the clock at 9.9, 10.05, 20 and
    20.35, there is no alert at [t0 + 10] and none at [t0 + 20],
    although a pass reads the clock exactly at [t0 + 20]: the first
    alert, at 10.05, moved the deadline to 20.05, and the alerts are at
    10.05 and 20.35. *)
Lemma watchdog_drifts_with_the_first_alert :
  let self := {| Mac.pokeball_region := (1380, 330, 60, 20);
                 Mac.name_region := (1224, 339, 145, 20);
                 Mac.target_pokemons := ["Garchomp"];
                 Mac.move_choice := "1" |} in
  let pass (now : Q) :=
    {| Mac.stop_is_set := false; Mac.pause_is_set := false;
       Mac.window_at_check := None;
       Mac.clock_at_encounter := now;
       Mac.window_at_name := None;
       Mac.clock_at_watchdog := now |} in
  let envs := [pass (99 # 10)%Q; pass (1005 # 100)%Q; pass 20%Q;
               pass (2035 # 100)%Q] in
  Forall (quiet self) envs ∧
  readings envs = [(99 # 10)%Q; (1005 # 100)%Q; 20%Q; (2035 # 100)%Q] ∧
  alert_times (Mac.run (H := reads "") self 0 envs).2
  = [(1005 # 100)%Q; (2035 # 100)%Q].
Proof.
  intros self pass envs. split; [|split].
  - repeat (constructor; [split; [reflexivity | right; reflexivity]|]). constructor.
  - reflexivity.
  - vm_compute. reflexivity.
Qed.

(** ** The matcher always returns *)

Lemma scan_indices_fits (alo blo bhi i : Z) (j2len : gmap Z Z) (js : list Z) :
  alo <= i → lengths_fit alo i j2len →
  ∀ (newj2len : gmap Z Z) (best : difflib.Match),
    lengths_fit alo (i + 1) newj2len → block_fits alo (i + 1) best →
    lengths_fit alo (i + 1) (difflib.scan_indices js blo bhi i j2len newj2len best).1 ∧
    block_fits alo (i + 1) (difflib.scan_indices js blo bhi i j2len newj2len best).2.
Proof.
  intros Hi Hold. induction js as [|j js IH]; intros newj2len best Hnew Hbest;
    cbn [difflib.scan_indices]; [by split|].
  destruct (j <? blo); [by apply IH|].
  destruct (bhi <=? j); [by split|].
  assert (Hk : 1 <= default 0 (j2len !! (j - 1)) + 1 <= i + 1 - alo).
  { destruct (j2len !! (j - 1)) as [v|] eqn:E; simpl.
    - apply Hold in E. lia.
    - lia. }
  apply IH.
  - intros j' v. rewrite lookup_insert. case_decide; [intros [= <-]; lia | apply Hnew].
  - destruct (best.2 <? _); [|exact Hbest].
    unfold block_fits. simpl. lia.
Qed.

Lemma scan_rows_fit (a : list ascii) (b2j : gmap ascii (list Z)) (alo blo bhi : Z)
    (n : nat) :
  ∀ (i : Z) (acc : gmap Z Z * difflib.Match),
    lengths_fit alo i acc.1 → block_fits alo i acc.2 →
    block_fits alo (i + Z.of_nat n)
      (foldl (difflib.scan_row a b2j blo bhi) acc (seqZ i (Z.of_nat n))).2.
Proof.
  induction n as [|n IH]; intros i acc Hlen Hbest.
  { simpl. by rewrite Z.add_0_r. }
  rewrite seqZ_cons by lia. cbn [foldl].
  replace (Z.pred (Z.of_nat (S n))) with (Z.of_nat n) by lia.
  replace (i + Z.of_nat (S n)) with (Z.succ i + Z.of_nat n) by lia.
  unfold difflib.scan_row at 2.
  assert (Hbest' : block_fits alo (i + 1) acc.2).
  { destruct Hbest as (? & ? & ?). unfold block_fits. lia. }
  assert (Hempty : lengths_fit alo (i + 1) ∅) by (intros j v; by rewrite lookup_empty).
  assert (Hi : alo <= i) by (destruct Hbest as (? & ? & ?); lia).
  match goal with
  | |- context [difflib.scan_indices ?js blo bhi i acc.1 ∅ acc.2] =>
      destruct (scan_indices_fits alo blo bhi i acc.1 js Hi Hlen ∅ acc.2 Hempty Hbest')
        as [H1 H2]
  end.
  apply IH; by rewrite <- Z.add_1_r.
Qed.

Lemma extend_left_fits (a b : list ascii) (side : ascii → bool) (alo blo i : Z)
    (rounds : nat) :
  ∀ m, block_fits alo i m →
       block_fits alo i (difflib.extend_left rounds a b side alo blo m).
Proof.
  induction rounds as [|rounds IH]; intros [[bi bj] bs] Hm; [exact Hm|].
  cbn [difflib.extend_left].
  destruct ((alo <? bi) && (blo <? bj)) eqn:E; [|exact Hm].
  destruct (a !! Z.to_nat (bi - 1)), (b !! Z.to_nat (bj - 1)); try exact Hm.
  destruct (side _ && _); [|exact Hm].
  apply IH. apply andb_true_iff in E as [E _].
  destruct Hm as (? & ? & ?). unfold block_fits in *. simpl in *. lia.
Qed.

Lemma extend_right_fits (a b : list ascii) (side : ascii → bool) (alo ahi bhi : Z)
    (rounds : nat) :
  ∀ m, block_fits alo ahi m →
       block_fits alo ahi (difflib.extend_right rounds a b side ahi bhi m).
Proof.
  induction rounds as [|rounds IH]; intros [[bi bj] bs] Hm; [exact Hm|].
  cbn [difflib.extend_right].
  destruct ((bi + bs <? ahi) && (bj + bs <? bhi)) eqn:E; [|exact Hm].
  destruct (a !! Z.to_nat (bi + bs)), (b !! Z.to_nat (bj + bs)); try exact Hm.
  destruct (side _ && _); [|exact Hm].
  apply IH. apply andb_true_iff in E as [E _].
  destruct Hm as (? & ? & ?). unfold block_fits in *. simpl in *. lia.
Qed.

(** The block found lies within the range of [a] it was searched in. *)
Lemma find_longest_match_fits (a b : list ascii) (b2j : gmap ascii (list Z))
    (alo ahi blo bhi : Z) :
  alo <= ahi →
  block_fits alo ahi (difflib.find_longest_match a b b2j alo ahi blo bhi).
Proof.
  intros Hle. unfold difflib.find_longest_match, difflib.extend.
  apply extend_right_fits, extend_left_fits, extend_right_fits, extend_left_fits.
  pose proof (scan_rows_fit a b2j alo blo bhi (Z.to_nat (ahi - alo)) alo
                (∅, (alo, blo, 0))) as Hscan.
  rewrite Z2Nat.id in Hscan by lia.
  replace (alo + (ahi - alo)) with ahi in Hscan by lia.
  apply Hscan.
  - intros j v. cbn [fst]. by rewrite lookup_empty.
  - unfold block_fits. simpl. lia.
Qed.

Lemma queue_loop_returns (a b : list ascii) (b2j : gmap ascii (list Z)) (rounds : nat) :
  ∀ (queue : list (Z * Z * Z * Z)) (blocks : list difflib.Match),
    ranges_ordered queue → (pending queue <= rounds)%nat →
    is_Some (difflib.queue_loop rounds a b b2j queue blocks).
Proof.
  induction rounds as [|rounds IH]; intros queue blocks Hord Hwork.
  { destruct queue as [|[[[alo ahi] blo] bhi] queue]; [by eexists|].
    simpl in Hwork. lia. }
  destruct queue as [|[[[alo ahi] blo] bhi] queue]; [by eexists|].
  cbn [difflib.queue_loop].
  apply Forall_cons in Hord as [Hle Hord]. simpl in Hwork.
  pose proof (find_longest_match_fits a b b2j alo ahi blo bhi Hle) as Hfit.
  destruct (difflib.find_longest_match a b b2j alo ahi blo bhi) as [[i j] k].
  destruct Hfit as (Hi & Hk & Hik). simpl in Hi, Hk, Hik.
  destruct (k =? 0) eqn:Ek.
  { apply IH; [exact Hord | lia]. }
  apply Z.eqb_neq in Ek.
  destruct ((alo <? i) && (blo <? j)) eqn:E1;
    destruct ((i + k <? ahi) && (j + k <? bhi)) eqn:E2;
    apply IH; repeat (apply Forall_cons; split); try exact Hord; simpl; try lia;
    try (apply andb_true_iff in E1 as [E1 _]; lia);
    try (apply andb_true_iff in E2 as [E2 _]; lia).
Qed.

(** The rounds [get_matching_blocks] allows always empty its queue. *)
Lemma get_matching_blocks_returns (a b : list ascii) :
  is_Some (difflib.queue_loop (2 * length a + 1) a b (difflib.chain_b b)
             [(0, Z.of_nat (length a), 0, Z.of_nat (length b))] []).
Proof.
  apply queue_loop_returns.
  - repeat constructor. lia.
  - simpl. lia.
Qed.

(** * Further properties *)

(** ** The passes of the worker loop *)

Lemma run_ticks_app `{Recognizer} (self : Mac.BotThread) (st : Mac.locals)
    (envs1 envs2 : list Mac.tick_env) :
  Mac.run_ticks self st (envs1 ++ envs2) =
    match Mac.run_ticks self st envs1 with
    | (Mac.Running, st1, tr1) =>
        let '(r, st2, tr2) := Mac.run_ticks self st1 envs2 in (r, st2, tr1 ++ tr2)
    | ended => ended
    end.
Proof.
  revert st. induction envs1 as [|env envs1 IH]; intros st.
  { simpl. by destruct (Mac.run_ticks self st envs2) as [[r st2] tr2]. }
  cbn [app Mac.run_ticks].
  destruct (Mac.tick self st env) as [[[| | |e] st'] ev]; [|reflexivity..].
  rewrite IH.
  destruct (Mac.run_ticks self st' envs1) as [[[| | |e] st1] tr1]; [|reflexivity..].
  destruct (Mac.run_ticks self st1 envs2) as [[r st2] tr2].
  by rewrite app_assoc.
Qed.

Lemma run_ticks_stop `{Recognizer} (self : Mac.BotThread) (st : Mac.locals)
    (env : Mac.tick_env) (rest : list Mac.tick_env) :
  Mac.stop_is_set env = true →
  Mac.run_ticks self st (env :: rest) = (Mac.Stopped, st, [log_put Msg_thread_stopping]).
Proof. intros Hstop. cbn [Mac.run_ticks]. unfold Mac.tick. by rewrite Hstop. Qed.

(** X2.  A stop request is honoured at the next pass: while the loop
    is running, a pass that finds stop set leaves the locals as they
    were, presses no key, and adds nothing to the trace but the closing
    log line; the passes after it are not run. *)
Theorem stop_is_honoured_at_the_next_pass `{Recognizer}
    (self : Mac.BotThread) (st : Mac.locals) (pre rest : list Mac.tick_env)
    (env : Mac.tick_env)
    (Hrunning : (Mac.run_ticks self st pre).1.1 = Mac.Running)
    (Hstop : Mac.stop_is_set env = true) :
  Mac.run_ticks self st (pre ++ env :: rest)
  = (Mac.Stopped, (Mac.run_ticks self st pre).1.2,
     (Mac.run_ticks self st pre).2 ++ [log_put Msg_thread_stopping]).
Proof.
  rewrite run_ticks_app.
  destruct (Mac.run_ticks self st pre) as [[r st1] tr1]. simpl in Hrunning. subst r.
  by rewrite run_ticks_stop.
Qed.

Lemma run_ticks_paused `{Recognizer} (self : Mac.BotThread) (st : Mac.locals)
    (envs : list Mac.tick_env) :
  Forall paused envs →
  Mac.run_ticks self st envs
  = (Mac.Running, st, replicate (length envs) (sleep (2 # 10))).
Proof.
  induction 1 as [|env envs [Hstop Hpause] _ IH]; [reflexivity|].
  cbn [Mac.run_ticks]. unfold Mac.tick. rewrite Hstop, Hpause, IH. reflexivity.
Qed.

(** X3.  Passes made while paused only sleep, 0.2 s each: they press no
    key, read neither the window nor the clock, and leave the counter,
    the watchdog times and the movement direction as they were, so the
    loop resumes exactly where it was. *)
Theorem pause_suspends_without_resetting `{Recognizer}
    (self : Mac.BotThread) (st : Mac.locals) (pauses rest : list Mac.tick_env)
    (Hpaused : Forall paused pauses) :
  Mac.run_ticks self st (pauses ++ rest)
  = (let '(r, st', tr) := Mac.run_ticks self st rest in
     (r, st', replicate (length pauses) (sleep (2 # 10)) ++ tr)).
Proof. by rewrite run_ticks_app, run_ticks_paused. Qed.

Lemma stop_is_honoured_at_the_next_pass_witness :
  let pre := [sample_pass false false false 1%Q; sample_pass false true false 2%Q] in
  let env := sample_pass true false true 3%Q in
  (Mac.run_ticks (H := reads "Rattata") sample_bot (Mac.initial 0) pre).1.1
    = Mac.Running ∧
  Mac.stop_is_set env = true ∧
  (Mac.run_ticks (H := reads "Rattata") sample_bot (Mac.initial 0)
     (pre ++ env :: [sample_pass false false true 4%Q])).1.1 = Mac.Stopped.
Proof.
  intros pre env.
  assert (Hrun : (Mac.run_ticks (H := reads "Rattata") sample_bot (Mac.initial 0)
                    pre).1.1 = Mac.Running) by (vm_compute; reflexivity).
  split; [exact Hrun|]. split; [reflexivity|].
  rewrite (stop_is_honoured_at_the_next_pass (H := reads "Rattata") sample_bot
             (Mac.initial 0) pre [sample_pass false false true 4%Q] env Hrun eq_refl).
  reflexivity.
Defined.

Lemma pause_suspends_without_resetting_witness :
  let pauses := [sample_pass false true true 1%Q; sample_pass false true false 2%Q] in
  Forall paused pauses ∧
  directional_keys
    (Mac.run_ticks (H := reads "Rattata") sample_bot (stepped (Mac.initial 0))
       (pauses ++ [sample_pass false false false 3%Q])).2 = [123].
Proof.
  intros pauses.
  assert (Hp : Forall paused pauses) by (repeat constructor).
  split; [exact Hp|].
  rewrite (pause_suspends_without_resetting (H := reads "Rattata") sample_bot
             (stepped (Mac.initial 0)) pauses [sample_pass false false false 3%Q] Hp).
  vm_compute. reflexivity.
Defined.

(** ** Regions without pixels *)

(** On a window that gave an image, the detector and the name reader
    raise when the region has no width or no height, and return when
    it has both. *)
Lemma is_reddish_on_region (window : cgimage) (x y w h : Z) (lo up : pixel) :
  if (w <=? 0) || (h <=? 0)
  then Mac.is_reddish_in_region (Some window) (x, y, w, h) lo up = Raised cv2_error
  else ∃ active, Mac.is_reddish_in_region (Some window) (x, y, w, h) lo up
                 = Returned active.
Proof.
  destruct (capture_empty window x y w h) as (im & Hcap & Hempty).
  rewrite (is_reddish_on_capture _ _ _ _ _ Hcap), Hempty.
  destruct ((w <=? 0) || (h <=? 0)); eauto.
Qed.

Lemma get_pokemon_name_on_region `{Recognizer} (window : cgimage) (x y w h : Z) :
  if (w <=? 0) || (h <=? 0)
  then Mac.get_pokemon_name (Some window) (x, y, w, h) = Raised cv2_error
  else ∃ pokemon_name, Mac.get_pokemon_name (Some window) (x, y, w, h)
                       = Returned pokemon_name.
Proof.
  destruct (capture_empty window x y w h) as (im & Hcap & Hempty).
  unfold Mac.get_pokemon_name, cvtColor_RGB2GRAY, cvtColor. rewrite Hcap, Hempty.
  destruct ((w <=? 0) || (h <=? 0)); eauto.
Qed.

Lemma degenerate_no_pixels (r : region) :
  degenerate r → (r.1.2 <=? 0) || (r.2 <=? 0) = true.
Proof.
  intros [Hw | Hh]; apply orb_true_iff; [left | right]; apply Z.leb_le; lia.
Qed.

(** X1.  A worker whose indicator region has zero width or zero height
    does not survive its first pass that is neither stopped nor paused
    and gets an image of the window: the arrow key is pressed and
    released, the detector raises, and the thread ends there, with
    nothing counted and without the closing log line.  With a name
    region of zero width or height the thread ends at the first
    positive check, after the encounter is counted and logged and
    before any name is read.  Later passes are not run. *)
Theorem degenerate_region_ends_the_thread `{Recognizer}
    (self : Mac.BotThread) (st : Mac.locals) (env : Mac.tick_env)
    (rest : list Mac.tick_env) (window : cgimage)
    (Hstop : Mac.stop_is_set env = false)
    (Hpause : Mac.pause_is_set env = false) :
  (degenerate (Mac.pokeball_region self) →
   Mac.window_at_check env = Some window →
   ∃ e, Mac.run_ticks self st (env :: rest) = (Mac.Died e, stepped st, movement st)) ∧
  (degenerate (Mac.name_region self) →
   Mac.window_at_name env = Some window →
   Mac.is_reddish_in_region (Mac.window_at_check env) (Mac.pokeball_region self)
     Mac.default_lower_thresh Mac.default_upper_thresh = Returned true →
   ∃ e, Mac.run_ticks self st (env :: rest)
        = (Mac.Died e, counted (stepped st) (Mac.clock_at_encounter env),
           movement st
             ++ [reddish_checked true;
                 time_time At_encounter (Mac.clock_at_encounter env);
                 log_put (Msg_encountered (Mac.encounter_count st + 1))])).
Proof.
  split.
  - intros Hdeg Hwin. exists cv2_error.
    cbn [Mac.run_ticks]. rewrite (tick_cases self st env Hstop Hpause). cbn zeta.
    unfold checked. rewrite Hwin.
    destruct (Mac.pokeball_region self) as [[[x y] w] h].
    pose proof (is_reddish_on_region window x y w h
                  Mac.default_lower_thresh Mac.default_upper_thresh) as Hr.
    pose proof (degenerate_no_pixels _ Hdeg) as Hnp. cbn [fst snd] in Hnp.
    rewrite Hnp in Hr. by rewrite Hr.
  - intros Hdeg Hwin Hactive. exists cv2_error.
    cbn [Mac.run_ticks]. rewrite (tick_cases self st env Hstop Hpause). cbn zeta.
    unfold checked, named. rewrite Hactive, Hwin.
    destruct (Mac.name_region self) as [[[x y] w] h].
    pose proof (get_pokemon_name_on_region window x y w h) as Hr.
    pose proof (degenerate_no_pixels _ Hdeg) as Hnp. cbn [fst snd] in Hnp.
    rewrite Hnp in Hr. by rewrite Hr.
Qed.

Lemma degenerate_region_ends_the_thread_witness :
  let self := {| Mac.pokeball_region := (1380, 330, 0, 20);
                 Mac.name_region := (1224, 339, 145, 20);
                 Mac.target_pokemons := ["Garchomp"];
                 Mac.move_choice := "1" |} in
  (Mac.gui.start_bot zero_width_gui).2 = Some self ∧
  Mac.stop_is_set (sample_pass false false true 1%Q) = false ∧
  Mac.pause_is_set (sample_pass false false true 1%Q) = false ∧
  ∃ e, Mac.run_ticks (H := reads "Rattata") self (Mac.initial 0)
         [sample_pass false false true 1%Q; sample_pass false false true 2%Q]
       = (Mac.Died e, stepped (Mac.initial 0), movement (Mac.initial 0)).
Proof.
  intros self.
  split; [vm_compute; reflexivity|]. split; [reflexivity|]. split; [reflexivity|].
  exact (proj1 (degenerate_region_ends_the_thread (H := reads "Rattata") self
                  (Mac.initial 0) (sample_pass false false true 1%Q)
                  [sample_pass false false true 2%Q] [[(200, 50, 50, 255)]]
                  eq_refl eq_refl)
               (or_introl eq_refl) eq_refl).
Defined.

(** ** Keys *)

Lemma move_map_lookup (move_choice : string) :
  default "1" (Mac.move_map !! move_choice) =
    if bool_decide (move_choice = "2") then "2"
    else if bool_decide (move_choice = "3") then "3"
    else if bool_decide (move_choice = "4") then "4"
    else if bool_decide (move_choice = "r") then "r"
    else "1".
Proof.
  unfold Mac.move_map. cbn [list_to_map foldr uncurry fst snd].
  destruct (decide (move_choice = "1")) as [->|H1]; [reflexivity|].
  rewrite lookup_insert_ne by congruence.
  destruct (decide (move_choice = "2")) as [->|H2]; [reflexivity|].
  rewrite lookup_insert_ne, (bool_decide_eq_false_2 _ H2) by congruence.
  destruct (decide (move_choice = "3")) as [->|H3]; [reflexivity|].
  rewrite lookup_insert_ne, (bool_decide_eq_false_2 _ H3) by congruence.
  destruct (decide (move_choice = "4")) as [->|H4]; [reflexivity|].
  rewrite lookup_insert_ne, (bool_decide_eq_false_2 _ H4) by congruence.
  destruct (decide (move_choice = "r")) as [->|H5]; [reflexivity|].
  rewrite lookup_insert_ne, (bool_decide_eq_false_2 _ H5) by congruence.
  by rewrite lookup_empty.
Qed.

Lemma defeat_press (self : Mac.BotThread) :
  Mac.defeat_wild_pokemon self
  = [CGEventPost (move_key_code (Mac.move_choice self)) true; sleep (1 # 10);
     CGEventPost (move_key_code (Mac.move_choice self)) false].
Proof.
  unfold Mac.defeat_wild_pokemon, move_key_code. rewrite move_map_lookup.
  repeat case_bool_decide; reflexivity.
Qed.

Lemma move_key_code_combat (move_choice : string) :
  is_combat_press (CGEventPost (move_key_code move_choice) true) = true ∧
  directional_key (CGEventPost (move_key_code move_choice) true) = None.
Proof. unfold move_key_code. repeat case_bool_decide; split; reflexivity. Qed.

(** X4.  The combat step presses exactly one key, held 0.1 s: the key
    of the chosen move when the choice is 1, 2, 3, 4 or r, and the key
    of move 1 for any other choice.  It never presses an arrow. *)
Theorem unknown_move_falls_back_to_move_1 (self : Mac.BotThread) :
  Mac.defeat_wild_pokemon self
  = [CGEventPost (move_key_code (Mac.move_choice self)) true; sleep (1 # 10);
     CGEventPost (move_key_code (Mac.move_choice self)) false] ∧
  Mac.MAC_KEYCODES !! default "1" (Mac.move_map !! Mac.move_choice self)
    = Some (move_key_code (Mac.move_choice self)) ∧
  (Mac.move_choice self ∈ ["2"; "3"; "4"; "r"] ∨
   move_key_code (Mac.move_choice self) = 18) ∧
  directional_keys (Mac.defeat_wild_pokemon self) = [].
Proof.
  split; [apply defeat_press|]. split; [|split].
  - rewrite move_map_lookup. unfold move_key_code.
    repeat case_bool_decide; reflexivity.
  - unfold move_key_code.
    repeat case_bool_decide; try (by right); left; subst; set_solver.
  - rewrite defeat_press. unfold move_key_code.
    repeat case_bool_decide; reflexivity.
Qed.

Lemma tick_keys_released `{Recognizer} (self : Mac.BotThread) (st : Mac.locals)
    (env : Mac.tick_env) (rest : list event) :
  held_then_released ((Mac.tick self st env).2 ++ rest) = held_then_released rest.
Proof.
  destruct (Mac.stop_is_set env) eqn:Hstop.
  { unfold Mac.tick. by rewrite Hstop. }
  destruct (Mac.pause_is_set env) eqn:Hpause.
  { unfold Mac.tick. by rewrite Hstop, Hpause. }
  rewrite (tick_cases self st env Hstop Hpause). cbn zeta.
  rewrite defeat_press. unfold movement.
  tick_split; cbn [snd];
    try match goal with
    | |- context [Mac.watchdog ?s ?n] =>
        destruct (watchdog_events s n) as [-> | ->]
    end;
    simpl; rewrite ?Z.eqb_refl; reflexivity.
Qed.

(** X5.  Whatever the passes bring, every key the worker puts down is
    held for a sleep and released again before any other key event: no
    key is left down when the loop stops, alerts, or is paused. *)
Theorem no_key_is_left_down `{Recognizer}
    (self : Mac.BotThread) (t0 : Q) (envs : list Mac.tick_env) :
  held_then_released (Mac.run self t0 envs).2 = true ∧
  ∀ st, held_then_released (Mac.run_ticks self st envs).2 = true.
Proof.
  assert (Hall : ∀ st, held_then_released (Mac.run_ticks self st envs).2 = true).
  { induction envs as [|env envs IH]; intros st; [reflexivity|].
    cbn [Mac.run_ticks].
    pose proof (tick_keys_released self st env) as Hk.
    destruct (Mac.tick self st env) as [[[| | |e] st'] ev]; cbn [snd] in Hk |- *.
    - specialize (IH st').
      destruct (Mac.run_ticks self st' envs) as [[r st''] ev']. cbn [snd] in *.
      by rewrite Hk.
    - by rewrite Hk.
    - by rewrite Hk.
    - specialize (Hk []). by rewrite app_nil_r in Hk. }
  split; [|exact Hall].
  unfold Mac.run. specialize (Hall (Mac.initial t0)).
  destruct (Mac.run_ticks self (Mac.initial t0) envs) as [[r st'] ev]. exact Hall.
Qed.

Lemma tick_tallies `{Recognizer} (self : Mac.BotThread) (st : Mac.locals)
    (env : Mac.tick_env) :
  let r := Mac.tick self st env in
  let answered := (tally is_combat_press r.2 + tally is_target_alert r.2)%nat in
  Mac.encounter_count r.1.2
    = Mac.encounter_count st + Z.of_nat (tally is_encounter r.2) ∧
  match r.1.1 with
  | Mac.Raises _ => (answered <= tally is_encounter r.2 <= answered + 1)%nat
  | _ => answered = tally is_encounter r.2
  end ∧
  tally is_target_alert r.2 = (if r.1.1 is Mac.Break then 1 else 0)%nat.
Proof.
  cbn zeta.
  destruct (Mac.stop_is_set env) eqn:Hstop.
  { unfold Mac.tick. rewrite Hstop. unfold tally. simpl. repeat split; lia. }
  destruct (Mac.pause_is_set env) eqn:Hpause.
  { unfold Mac.tick. rewrite Hstop, Hpause. unfold tally. simpl. repeat split; lia. }
  rewrite (tick_cases self st env Hstop Hpause). cbn zeta.
  rewrite defeat_press. unfold movement, move_key_code, tally.
  tick_split; cbn [fst snd];
    try match goal with
    | |- context [Mac.watchdog ?s ?n] =>
        destruct (watchdog_keeps s n) as (_ & -> & _);
        destruct (watchdog_events s n) as [-> | ->]
    end;
    destruct (Mac.last_dir st =? 0); repeat case_bool_decide;
    repeat split; simpl; lia.
Qed.

(** X6.  The encounter counter grows by one for each positive encounter
    check and by nothing else.  Each encounter is answered either by
    one press of a move key or by the target alert, never both, unless
    an exception ends the thread: the encounter at which the name
    reader raised is counted and left unanswered.  The target alert is
    raised once when the loop ends on a target and not at all
    otherwise. *)
Theorem encounters_are_counted_and_answered `{Recognizer}
    (self : Mac.BotThread) (st : Mac.locals) (envs : list Mac.tick_env) :
  let r := Mac.run_ticks self st envs in
  let answered := (tally is_combat_press r.2 + tally is_target_alert r.2)%nat in
  Mac.encounter_count r.1.2
    = Mac.encounter_count st + Z.of_nat (tally is_encounter r.2) ∧
  match r.1.1 with
  | Mac.Died _ => (answered <= tally is_encounter r.2 <= answered + 1)%nat
  | _ => answered = tally is_encounter r.2
  end ∧
  tally is_target_alert r.2 = (if r.1.1 is Mac.Alerted then 1 else 0)%nat.
Proof.
  cbn zeta. revert st. induction envs as [|env envs IH]; intros st.
  { unfold tally. simpl. repeat split; lia. }
  cbn [Mac.run_ticks].
  pose proof (tick_tallies self st env) as (Hc & Ha & Ht). cbn zeta in Hc, Ha, Ht.
  assert (Hclose : ∀ f, f (log_put Msg_thread_stopping) = false →
                        tally f (Mac._log Msg_thread_stopping) = 0%nat).
  { intros f Hf. unfold tally, Mac._log. rewrite filter_cons.
    case_decide; [congruence | reflexivity]. }
  destruct (Mac.tick self st env) as [[[| | |e] st'] ev]; cbn [fst snd] in *.
  - specialize (IH st') as (IHc & IHa & IHt).
    destruct (Mac.run_ticks self st' envs) as [[r st''] ev']. cbn [fst snd] in *.
    rewrite !tally_app. destruct r; repeat split; lia.
  - rewrite !tally_app, !Hclose by reflexivity. repeat split; lia.
  - rewrite !tally_app, !Hclose by reflexivity. repeat split; lia.
  - repeat split; lia.
Qed.

(** An encounter left unanswered: the name region has no width, and
    the thread ends at the first positive check with the encounter
    counted and no key pressed for it. *)
Example unanswered_encounter :
  let self := {| Mac.pokeball_region := (0, 0, 1, 1);
                 Mac.name_region := (0, 0, 0, 1);
                 Mac.target_pokemons := ["Garchomp"];
                 Mac.move_choice := "3" |} in
  let r := Mac.run_ticks (H := reads "Rattata") self (Mac.initial 0)
             [sample_pass false false false 1%Q; sample_pass false false true 2%Q;
              sample_pass false false true 3%Q] in
  r.1.1 = Mac.Died cv2_error ∧ Mac.encounter_count r.1.2 = 1 ∧
  tally is_encounter r.2 = 1%nat ∧ tally is_combat_press r.2 = 0%nat ∧
  tally is_target_alert r.2 = 0%nat.
Proof. vm_compute. repeat split. Qed.

Lemma tick_alerts_clear `{Recognizer} (self : Mac.BotThread) (st : Mac.locals)
    (env : Mac.tick_env) (now : Q) (rest : list event) :
  (∀ now', alerts_clear (Mac.last_encounter_time (Mac.tick self st env).1.2) now' rest) →
  alerts_clear (Mac.last_encounter_time st) now ((Mac.tick self st env).2 ++ rest).
Proof.
  destruct (Mac.stop_is_set env) eqn:Hstop.
  { unfold Mac.tick. rewrite Hstop. intros Hrest. apply Hrest. }
  destruct (Mac.pause_is_set env) eqn:Hpause.
  { unfold Mac.tick. rewrite Hstop, Hpause. intros Hrest. apply Hrest. }
  rewrite (tick_cases self st env Hstop Hpause). cbn zeta.
  rewrite defeat_press. unfold movement, Mac.watchdog.
  tick_split;
    cbn [fst snd stepped counted Mac.last_encounter_time Mac.next_check_time];
    intros Hrest;
    try (destruct (Qle_bool _ (Mac.clock_at_watchdog env));
         [destruct (Qle_bool 10 _) eqn:E|]);
    simpl in Hrest |- *; try split; try apply Hrest;
    apply Qle_bool_iff in E; lra.
Qed.

(** X7.  No no-encounters alert comes sooner than ten seconds after the
    latest encounter, or after the start when there was none yet: at
    each alert the watchdog's reading is at least ten more than the
    clock reading taken at that encounter or start. *)
Theorem no_alert_within_ten_seconds_of_an_encounter `{Recognizer}
    (self : Mac.BotThread) (t0 : Q) (envs : list Mac.tick_env) :
  alerts_clear 0 0 (Mac.run self t0 envs).2 ∧
  ∀ st now, alerts_clear (Mac.last_encounter_time st) now (Mac.run_ticks self st envs).2.
Proof.
  assert (Hall : ∀ st now,
            alerts_clear (Mac.last_encounter_time st) now (Mac.run_ticks self st envs).2).
  { induction envs as [|env envs IH]; intros st now; [exact I|].
    cbn [Mac.run_ticks].
    pose proof (tick_alerts_clear self st env now) as Hk.
    destruct (Mac.tick self st env) as [[[| | |e] st'] ev]; cbn [fst snd] in Hk |- *.
    - pose proof (IH st') as IH'.
      destruct (Mac.run_ticks self st' envs) as [[r st''] ev']. cbn [snd] in *.
      by apply Hk.
    - apply Hk. intros now'. exact I.
    - apply Hk. intros now'. exact I.
    - specialize (Hk []). rewrite app_nil_r in Hk. apply Hk. intros now'. exact I. }
  split; [|exact Hall].
  unfold Mac.run. specialize (Hall (Mac.initial t0) 0%Q).
  destruct (Mac.run_ticks self (Mac.initial t0) envs) as [[r st'] ev]. exact Hall.
Qed.

(** ** Capture *)

Lemma pil_getpixel_at {A} (blank : A) (img : list (list A)) (cx cy : Z) :
  pil_getpixel blank img cx cy = default blank (pixel_at img cx cy).
Proof.
  unfold pil_getpixel, pixel_at.
  destruct ((cx <? 0) || (cy <? 0)); [reflexivity|].
  by destruct (img !! Z.to_nat cy).
Qed.

Lemma pil_crop_row {A} (blank : A) (img : list (list A)) (x y x2 y2 j : Z) :
  0 <= j < y2 - y →
  pil_crop blank img x y x2 y2 !! Z.to_nat j
  = Some ((λ cx : Z, pil_getpixel blank img cx (y + j)) <$> seqZ x (x2 - x)).
Proof.
  intros Hj. unfold pil_crop.
  rewrite list_lookup_fmap, lookup_seqZ_lt by lia. simpl.
  by rewrite Z2Nat.id by lia.
Qed.



(** X8.  A capture with a region of width [w] and height [h], neither
    negative, is an image of [h] rows of [w] pixels; its pixel at
    column [i] of row [j] is the window's pixel at [(x + i, y + j)]
    without its fourth channel, and black where the window has no such
    pixel.  Without a region the capture is the whole window. *)
Theorem capture_crops_to_the_region
    (window : cgimage) (x y w h i j : Z)
    (Hi : 0 <= i < w) (Hj : 0 <= j < h) :
  ∃ out,
    Mac.capture_window_mac (Some window) (Some (x, y, w, h)) = Some out ∧
    length out = Z.to_nat h ∧
    Forall (λ row, length row = Z.to_nat w) out ∧
    out !! Z.to_nat j ≫= (λ row, row !! Z.to_nat i)
    = Some (match pixel_at window (x + i) (y + j) with
            | Some p => drop_alpha p
            | None => (0, 0, 0)
            end) ∧
    Mac.capture_window_mac (Some window) None = Some (pil_convert_rgb window).
Proof.
  exists (pil_convert_rgb (pil_crop (0, 0, 0, 0) window x y (x + w) (y + h))).
  split; [reflexivity|]. unfold pil_convert_rgb.
  split; [|split; [|split; [|reflexivity]]].
  - unfold pil_crop. rewrite !length_fmap, length_seqZ. f_equal. lia.
  - apply Forall_forall. intros row Hrow.
    apply list_elem_of_fmap in Hrow as (row' & -> & Hrow').
    unfold pil_crop in Hrow'. apply list_elem_of_fmap in Hrow' as (cy & -> & _).
    rewrite !length_fmap, length_seqZ. f_equal. lia.
  - unfold image. rewrite list_lookup_fmap, pil_crop_row by lia.
    cbn [fmap option_fmap option_map mbind option_bind].
    rewrite !list_lookup_fmap, lookup_seqZ_lt by lia.
    cbn [fmap option_fmap option_map]. rewrite Z2Nat.id by lia. f_equal.
    rewrite pil_getpixel_at. by destruct (pixel_at window (x + i) (y + j)).
Qed.

Lemma capture_crops_to_the_region_witness :
  0 <= 1 < 2 ∧ 0 <= 0 < 1 ∧
  Mac.capture_window_mac (Some [[(1, 2, 3, 255); (4, 5, 6, 255)]]) (Some (0, 0, 2, 1))
  = Some [[(1, 2, 3); (4, 5, 6)]].
Proof.
  split; [lia|]. split; [lia|].
  destruct (capture_crops_to_the_region [[(1, 2, 3, 255); (4, 5, 6, 255)]]
              0 0 2 1 1 0 ltac:(lia) ltac:(lia)) as (out & Hcap & _).
  reflexivity.
Defined.



(** X10.  The Windows detector never raises, whatever the size of the
    client area: when the check coordinate lies outside the client
    area, the pixel it samples is black and it answers false. *)
Theorem check_outside_the_client_area_is_false
    (client : image) (x y : Z)
    (Houtside : pixel_at client x y = None) :
  Plus.get_pixel_color client x y = Returned (0, 0, 0) ∧
  Plus.is_predefined_coord_reddish client x y
  = Returned (false, [stdout (Msg_pixel_color x y 0 0 0)]).
Proof.
  assert (Hpix : pil_getpixel (0, 0, 0) client x y = (0, 0, 0)).
  { pose proof (pil_getpixel_at (0, 0, 0) client x y) as E.
    unfold pixel in *. by rewrite Houtside in E. }
  split.
  - unfold Plus.get_pixel_color.
    destruct (plus_capture_20 client x y) as (row & rows & ->). by rewrite Hpix.
  - rewrite is_predefined_coord_reddish_eq, Hpix. reflexivity.
Qed.

Lemma check_outside_the_client_area_is_false_witness :
  pixel_at [[(200, 50, 50)]] 1390 340 = None ∧
  Plus.is_predefined_coord_reddish [[(200, 50, 50)]] 1390 340
  = Returned (false, [stdout (Msg_pixel_color 1390 340 0 0 0)]).
Proof.
  split; [reflexivity|].
  exact (proj2 (check_outside_the_client_area_is_false [[(200, 50, 50)]] 1390 340
                  eq_refl)).
Defined.

(** ** Integers in the region entries *)

Lemma digit_value_char (d : Z) :
  0 <= d < 10 → Mac.gui.digit_value (Panel.digit_char d) = Some d.
Proof.
  intros Hd.
  assert (Hcases : d = 0 ∨ d = 1 ∨ d = 2 ∨ d = 3 ∨ d = 4 ∨ d = 5 ∨ d = 6 ∨ d = 7
                   ∨ d = 8 ∨ d = 9) by lia.
  repeat (destruct Hcases as [-> | Hcases]; [reflexivity|]). by subst.
Qed.

Lemma digits_of_spec (rounds : nat) :
  ∀ (n : Z) (acc : list ascii),
    0 <= n < 2 ^ Z.of_nat rounds → Forall is_decimal acc →
    Forall is_decimal (Panel.digits_of rounds n acc) ∧
    foldl decimal_step 0 (Panel.digits_of rounds n acc) = foldl decimal_step n acc.
Proof.
  induction rounds as [|rounds IH]; intros n acc Hn Hacc.
  { simpl in *. assert (n = 0) by lia. by subst. }
  cbn [Panel.digits_of].
  assert (Hd : Mac.gui.digit_value (Panel.digit_char (n mod 10)) = Some (n mod 10))
    by (apply digit_value_char; apply Z.mod_pos_bound; lia).
  assert (Hacc' : Forall is_decimal (Panel.digit_char (n mod 10) :: acc)).
  { constructor; [|exact Hacc]. unfold is_decimal. rewrite Hd. by eexists. }
  destruct (n <? 10) eqn:E.
  - apply Z.ltb_lt in E. split; [exact Hacc'|].
    cbn [foldl]. unfold decimal_step at 2. rewrite Hd. simpl.
    by rewrite Z.mod_small by lia.
  - apply Z.ltb_ge in E.
    assert (Hdiv : 0 <= n / 10 < 2 ^ Z.of_nat rounds).
    { split; [apply Z.div_pos; lia|].
      apply Z.div_lt_upper_bound; [lia|].
      rewrite Nat2Z.inj_succ, Z.pow_succ_r in Hn by lia. lia. }
    destruct (IH (n / 10) _ Hdiv Hacc') as [Hall Hval].
    split; [exact Hall|]. rewrite Hval. cbn [foldl].
    unfold decimal_step at 2. rewrite Hd. simpl. f_equal.
    pose proof (Z.div_mod n 10). lia.
Qed.

Lemma digits_of_keeps (rounds : nat) :
  ∀ (n : Z) (acc : list ascii), acc ≠ [] → Panel.digits_of rounds n acc ≠ [].
Proof.
  induction rounds as [|rounds IH]; intros n acc Hacc; [exact Hacc|].
  cbn [Panel.digits_of]. destruct (n <? 10); [discriminate|]. by apply IH.
Qed.

Lemma digits_of_nonempty (rounds : nat) (n : Z) :
  Panel.digits_of (S rounds) n [] ≠ [].
Proof.
  cbn [Panel.digits_of]. destruct (n <? 10); [discriminate|].
  by apply digits_of_keeps.
Qed.

Lemma parse_all_digits (l : list ascii) :
  Forall is_decimal l →
  ∀ (acc : Z) (after_digit : bool),
    l ≠ [] ∨ after_digit = true →
    Mac.gui.parse_digits l acc after_digit = Some (foldl decimal_step acc l).
Proof.
  induction 1 as [|c l [d Hd] _ IH]; intros acc after_digit Hne.
  { destruct Hne as [Hl | Hb]; [done | by rewrite Hb]. }
  cbn [Mac.gui.parse_digits foldl]. unfold decimal_step at 2. rewrite Hd.
  apply IH. by right.
Qed.

Lemma decimal_not_space (c : ascii) :
  is_decimal c → Mac.gui.int_isspace c = false ∧ c ≠ "-"%char ∧ c ≠ "+"%char.
Proof.
  intros [d Hd].
  destruct c as [b0 b1 b2 b3 b4 b5 b6 b7];
    destruct b0, b1, b2, b3, b4, b5, b6, b7; try discriminate Hd;
    repeat split; discriminate.
Qed.

Lemma lstrip_int_head (c : ascii) (l : list ascii) :
  Mac.gui.int_isspace c = false → Mac.gui.lstrip_int (c :: l) = c :: l.
Proof. intros Hc. simpl. by rewrite Hc. Qed.

Lemma lstrip_int_last (l : list ascii) (c : ascii) :
  Mac.gui.int_isspace c = false →
  rev (Mac.gui.lstrip_int (rev (l ++ [c]))) = l ++ [c].
Proof.
  intros Hc. rewrite rev_app_distr. cbn [rev app].
  by rewrite lstrip_int_head, <- (rev_involutive l), <- rev_unit, !rev_involutive.
Qed.

(** The decimal digits of a number that is not negative parse back to
    it, and no blank is stripped from them. *)
Lemma int_of_digits (l : list ascii) :
  Forall is_decimal l → l ≠ [] →
  Mac.gui.int (string_of_list_ascii l) = Returned (foldl decimal_step 0 l) ∧
  Mac.gui.int (string_of_list_ascii ("-"%char :: l))
    = Returned (- foldl decimal_step 0 l).
Proof.
  intros Hall Hne.
  assert (Hlast : ∃ front c, l = front ++ [c] ∧ is_decimal c).
  { destruct (exists_last Hne) as (front & c & ->). exists front, c.
    split; [reflexivity|]. apply Forall_app in Hall as [_ Hc]. by inversion Hc. }
  destruct Hlast as (front & c & Hl & Hc).
  destruct (decimal_not_space c Hc) as (Hsp & _).
  unfold Mac.gui.int. rewrite !chars_of_list. split.
  - destruct l as [|c0 l0]; [done|].
    assert (Hc0 : is_decimal c0) by (by inversion Hall).
    destruct (decimal_not_space c0 Hc0) as (Hsp0 & Hminus & Hplus).
    rewrite lstrip_int_head by exact Hsp0. rewrite Hl, lstrip_int_last by exact Hsp.
    rewrite <- Hl.
    rewrite (parse_all_digits (c0 :: l0) Hall 0 false) by (by left).
    destruct c0 as [b0 b1 b2 b3 b4 b5 b6 b7];
      destruct b0, b1, b2, b3, b4, b5, b6, b7; try reflexivity; congruence.
  - rewrite lstrip_int_head by reflexivity.
    rewrite Hl, app_comm_cons, lstrip_int_last by exact Hsp.
    rewrite <- app_comm_cons, <- Hl.
    rewrite (parse_all_digits l Hall 0 false) by (by left). reflexivity.
Qed.

Lemma int_of_str (n : Z) :
  Mac.gui.int (Panel.str n) = Returned n.
Proof.
  unfold Panel.str.
  assert (Hbound : 0 <= Z.abs n < 2 ^ Z.of_nat (S (Z.to_nat (Z.log2 (Z.abs n))))).
  { split; [lia|]. rewrite Nat2Z.inj_succ, Z2Nat.id by apply Z.log2_nonneg.
    destruct (decide (Z.abs n = 0)) as [->|Hpos]; [reflexivity|].
    apply Z.log2_spec. lia. }
  destruct (digits_of_spec _ _ [] Hbound (Forall_nil_2 _)) as [Hall Hval].
  pose proof (digits_of_nonempty (Z.to_nat (Z.log2 (Z.abs n))) (Z.abs n)) as Hne.
  destruct (int_of_digits _ Hall Hne) as [Hplain Hminus].
  destruct (n <? 0) eqn:E.
  - rewrite Hminus, Hval. simpl. f_equal. apply Z.ltb_lt in E. lia.
  - rewrite Hplain, Hval. simpl. f_equal. apply Z.ltb_ge in E. lia.
Qed.

(** X11.  Every integer written into a region entry is read back by
    [int] as the same integer, [int(str(n)) == n], and so are the four
    entries of a region. *)
Theorem int_reads_back_what_str_writes (x y w h : Z) :
  Mac.gui.int (Panel.str x) = Returned x ∧
  Mac.gui.int4 (Panel.str x) (Panel.str y) (Panel.str w) (Panel.str h)
  = Returned (x, y, w, h).
Proof.
  split; [apply int_of_str|].
  unfold Mac.gui.int4. by rewrite !int_of_str.
Qed.

Example str_examples :
  Panel.str 1380 = "1380" ∧ Panel.str 0 = "0" ∧ Panel.str (-45) = "-45".
Proof. vm_compute. auto. Qed.

(** ** The control panel *)

(** The event loop returns exactly when the root window is
    destroyed. *)
Lemma mainloop_returns (events : list Mac.dispatched) :
  ∀ st : Mac.calibration,
    match Mac.mainloop st events with
    | None => Mac.Root_destroyed ∉ events
    | Some _ => Mac.Root_destroyed ∈ events
    end.
Proof.
  induction events as [|[p|] events IH]; intros st; cbn [Mac.mainloop].
  - apply not_elem_of_nil.
  - assert (Hstep : ∀ st',
      match Mac.mainloop st' events with
      | None => Mac.Root_destroyed ∉ Mac.Canvas p :: events
      | Some _ => Mac.Root_destroyed ∈ Mac.Canvas p :: events
      end).
    { intros st'. specialize (IH st'). destruct (Mac.mainloop st' events).
      - by apply list_elem_of_further.
      - rewrite not_elem_of_cons. by split. }
    destruct (Mac.destroyed st); [apply Hstep|].
    destruct p as [x y rect_id|x y|x y]; try apply Hstep.
    destruct (Mac.on_button_release st x y) as [[st' ev]|e]; [|apply Hstep].
    specialize (Hstep st'). by destruct (Mac.mainloop st' events) as [[st'' ev']|].
  - apply list_elem_of_here.
Qed.

(** X12.  [calibrate_regions] never writes a calibrated box into the
    region entries.  [calib_win.mainloop()] returns only once the root
    window is destroyed: while the root window exists the call is still
    in the loop, whatever was drawn; when it returns the entries are
    gone, and the first call on one raises [TclError] before anything
    is written or saved.  The call returns normally only when the
    window was not found or could not be captured, and then the entries
    hold what they held. *)
Theorem calibration_never_reaches_the_entries
    (self : Panel.BotGUI) (full_image_ref : option cgimage)
    (events : list Mac.dispatched) :
  match Panel.calibrate_regions self full_image_ref events with
  | None =>
      Mac.gui.window_missing (Panel.base self) = false ∧ full_image_ref ≠ None ∧
      Mac.Root_destroyed ∉ events
  | Some (self', acts, None) =>
      (Mac.gui.window_missing (Panel.base self) = true ∨ full_image_ref = None) ∧
      region_entries (Panel.base self') = region_entries (Panel.base self)
  | Some (self', acts, Some e) =>
      e = TclError ∧ self' = self ∧
      Mac.gui.window_missing (Panel.base self) = false ∧ full_image_ref ≠ None ∧
      Mac.Root_destroyed ∈ events ∧
      Forall (λ a, ∀ cfg, a ≠ Panel.saved cfg) acts
  end.
Proof.
  unfold Panel.calibrate_regions.
  destruct (Mac.gui.window_missing (Panel.base self)) eqn:Hwindow; [by split; [left|]|].
  unfold Mac.calibrate_two_regions.
  destruct full_image_ref as [window|]; cbn [Mac.capture_window_mac].
  2:{ split; [by right | reflexivity]. }
  pose proof (mainloop_returns events Mac.calibration_start) as Hloop.
  destruct (Mac.mainloop Mac.calibration_start events) as [[st ev]|];
    [|by repeat split].
  assert (Hinner : Forall (λ a, ∀ cfg, a ≠ Panel.saved cfg) (Panel.inner <$> ev)).
  { apply Forall_fmap, Forall_true. intros e cfg. discriminate. }
  destruct (default None (Mac.result st !! 0%nat)),
           (default None (Mac.result st !! 1%nat));
    repeat split; try done.
  apply Forall_app. split; [exact Hinner|]. by repeat constructor.
Qed.

(** Two boxes are drawn and the calibration window closes: the call is
    still in the event loop, and the panel has not changed.  When the
    root window is closed the call ends with [TclError], the boxes
    unwritten. *)
Example calibrated_boxes_are_dropped :
  let self := sample_panel "" ["Garchomp"] in
  let drags :=
    Mac.Canvas <$>
      [Mac.ButtonPress 70 40 1; Mac.ButtonRelease 10 25;
       Mac.ButtonPress 5 90 2; Mac.ButtonRelease 50 60] in
  Panel.calibrate_regions self (Some [[(0, 0, 0, 255)]]) drags = None ∧
  Panel.calibrate_regions self (Some [[(0, 0, 0, 255)]]) (drags ++ [Mac.Root_destroyed])
  = Some (self,
          [Panel.inner (log_put (Msg_calibrated 1 10 25 60 15));
           Panel.inner (log_put (Msg_calibrated 2 5 60 45 30));
           Panel.inner calib_win_destroy],
          Some TclError).
Proof. split; reflexivity. Qed.

Lemma find_window_scan (title : string) (ws : list Panel.window_info) :
  match Panel.find_window_by_title ws title with
  | Some (w_id, w_bounds) =>
      ∃ pre w post,
        ws = pre ++ w :: post ∧ accepted title w w_id w_bounds ∧
        Forall (λ w', ∀ i b, ¬ accepted title w' i b) pre
  | None => Forall (λ w', ∀ i b, ¬ accepted title w' i b) ws
  end.
Proof.
  induction ws as [|w ws IH]; [constructor|].
  assert (Hskip : (∀ i b, ¬ accepted title w i b) →
    match Panel.find_window_by_title ws title with
    | Some (w_id, w_bounds) =>
        ∃ pre w0 post,
          w :: ws = pre ++ w0 :: post ∧ accepted title w0 w_id w_bounds ∧
          Forall (λ w', ∀ i b, ¬ accepted title w' i b) pre
    | None => Forall (λ w', ∀ i b, ¬ accepted title w' i b) (w :: ws)
    end).
  { intros Hno. destruct (Panel.find_window_by_title ws title) as [[w_id w_bounds]|].
    - destruct IH as (pre & w0 & post & -> & Hacc & Hpre).
      exists (w :: pre), w0, post. split; [reflexivity|]. split; [exact Hacc|].
      by constructor.
    - by constructor. }
  cbn [Panel.find_window_by_title]. cbn zeta.
  destruct (Panel.contains (lower title)
              (lower (default "" (Panel.kCGWindowOwnerName w))) ||
            Panel.contains (lower title)
              (lower (default "" (Panel.kCGWindowName w)))) eqn:Hhit.
  2:{ apply Hskip. intros i b (Hc & _).
      apply orb_false_iff in Hhit as [H1 H2]. destruct Hc; congruence. }
  destruct (Panel.kCGWindowNumber w) as [window_id|] eqn:Hid.
  2:{ apply Hskip. intros i b (_ & Hi & _). congruence. }
  destruct (Panel.kCGWindowBounds w) as [bounds|] eqn:Hb.
  2:{ apply Hskip. intros i b (_ & _ & Hbb & _). congruence. }
  destruct (negb (window_id =? 0) && negb (bool_decide (bounds = ∅))) eqn:Hok.
  - apply andb_true_iff in Hok as [Hz He].
    apply negb_true_iff in Hz, He. apply Z.eqb_neq in Hz.
    apply bool_decide_eq_false in He.
    exists [], w, ws. split; [reflexivity|]. split; [|constructor].
    unfold accepted. rewrite Hid, Hb.
    apply orb_true_iff in Hhit. auto.
  - apply Hskip. intros i b (_ & Hi & Hbb & Hz & He).
    rewrite Hid in Hi. rewrite Hb in Hbb. injection Hi as <-. injection Hbb as <-.
    apply andb_false_iff in Hok as [Hok|Hok]; apply negb_false_iff in Hok.
    + apply Z.eqb_eq in Hok. contradiction.
    + apply bool_decide_eq_true in Hok. contradiction.
Qed.

(** X13.  [find_window_by_title] returns the number and bounds of the
    first window of the list whose owner name or title contains the
    wanted title, letter case aside, and whose number and bounds are
    not empty; it returns nothing exactly when no window of the list is
    like that.  A window it found is then stored by [find_pbo_window]
    and always passes the window check of [start_bot]; when none is
    found the panel is left as it was. *)
Theorem found_window_passes_the_start_check
    (self : Panel.BotGUI) (ws : list Panel.window_info) :
  match Panel.find_window_by_title ws Panel.GAME_WINDOW_TITLE with
  | Some (w_id, w_bounds) =>
      (∃ pre w post,
         ws = pre ++ w :: post ∧ accepted Panel.GAME_WINDOW_TITLE w w_id w_bounds ∧
         Forall (λ w', ∀ i b, ¬ accepted Panel.GAME_WINDOW_TITLE w' i b) pre) ∧
      Mac.gui.window_missing (Panel.base (Panel.find_pbo_window self ws).1) = false ∧
      (Panel.find_pbo_window self ws).2 = [Panel.put (Panel.Note_found_window w_id w_bounds)]
  | None =>
      Forall (λ w', ∀ i b, ¬ accepted Panel.GAME_WINDOW_TITLE w' i b) ws ∧
      Panel.find_pbo_window self ws
      = (self, [Panel.put (Panel.Note_window_not_found Panel.GAME_WINDOW_TITLE)])
  end.
Proof.
  pose proof (find_window_scan Panel.GAME_WINDOW_TITLE ws) as Hscan.
  unfold Panel.find_pbo_window.
  destruct (Panel.find_window_by_title ws Panel.GAME_WINDOW_TITLE)
    as [[w_id w_bounds]|]; [|by split].
  split; [exact Hscan|]. split; [|reflexivity].
  destruct Hscan as (pre & w & post & _ & (_ & _ & _ & Hz & He) & _).
  cbn [fst Panel.base Panel.with_base]. unfold Mac.gui.window_missing.
  cbn [Panel.set_window Mac.gui.window_id Mac.gui.window_bounds].
  apply orb_false_iff. split; [by apply Z.eqb_neq | by apply bool_decide_eq_false].
Qed.

Example find_window_examples :
  let w title number :=
    {| Panel.kCGWindowOwnerName := Some "Browser";
       Panel.kCGWindowName := title;
       Panel.kCGWindowNumber := number;
       Panel.kCGWindowBounds := Some {["Width" := 800]} |} in
  Panel.find_window_by_title
    [w None (Some 3); w (Some "POKEMON BLAZE ONLINE - play") None;
     w (Some "pokemon blaze online") (Some 0);
     w (Some "My Pokemon Blaze Online tab") (Some 42);
     w (Some "Pokemon Blaze Online") (Some 43)]
    Panel.GAME_WINDOW_TITLE
  = Some (42, {["Width" := 800]}).
Proof. vm_compute. reflexivity. Qed.

Lemma empty_not_added (targets : list string) (name : string) :
  name ≠ "" →
  existsb (Mac._is_similar "") (targets ++ [name]) = existsb (Mac._is_similar "") targets.
Proof.
  intros Hne. rewrite !empty_text_match_iff. apply bool_decide_ext.
  rewrite elem_of_app, list_elem_of_singleton. split; [|by left].
  intros [?|?]; [done | congruence].
Qed.

(** X14.  [add_pokemon] adds nothing when the entry is empty or all
    white space; otherwise it appends the entry's text, trimmed, to the
    end of the target list, clears the entry and saves the list.  The
    name it adds is never empty, so adding a name never changes whether
    the empty recognised text matches the list. *)
Theorem add_pokemon_adds_a_trimmed_name (self : Panel.BotGUI) :
  let new_poke := strip (Panel.new_pokemon_entry self) in
  let r := Panel.add_pokemon self in
  if bool_decide (new_poke = "") then r = (self, [])
  else
    targets_of r.1 = targets_of self ++ [new_poke] ∧
    trimmed new_poke ∧
    Panel.new_pokemon_entry r.1 = "" ∧
    Mac.gui.config_data (Panel.base r.1) !! "target_pokemons"
      = Some (Panel.targets_json (targets_of r.1)) ∧
    r.2 = [Panel.put (Panel.Note_added new_poke);
           Panel.saved (Mac.gui.config_data (Panel.base r.1))] ∧
    existsb (Mac._is_similar "") (targets_of r.1)
      = existsb (Mac._is_similar "") (targets_of self).
Proof.
  cbn zeta. unfold Panel.add_pokemon.
  case_bool_decide as Hblank; [reflexivity|].
  cbn [fst snd]. unfold targets_of. cbn [Panel.base Panel.clear_entry
    Panel.set_targets Mac.gui.target_pokemons Mac.gui.config_data
    Panel.new_pokemon_entry].
  repeat split; try apply strip_trimmed.
  - by rewrite lookup_insert_eq.
  - by apply empty_not_added.
Qed.

Lemma remove_first_spec (x : string) (l : list string) :
  if bool_decide (x ∈ l)
  then ∃ l1 l2, l = l1 ++ x :: l2 ∧ (x ∉ l1) ∧ Panel.remove_first x l = l1 ++ l2
  else Panel.remove_first x l = l.
Proof.
  induction l as [|y l IH].
  { rewrite bool_decide_eq_false_2 by apply not_elem_of_nil. reflexivity. }
  cbn [Panel.remove_first].
  destruct (decide (y = x)) as [->|Hne].
  - rewrite (bool_decide_eq_true_2 (x = x)) by reflexivity.
    rewrite bool_decide_eq_true_2 by apply list_elem_of_here.
    exists [], l. split; [reflexivity|]. split; [apply not_elem_of_nil | reflexivity].
  - rewrite (bool_decide_eq_false_2 (y = x)) by exact Hne.
    destruct (decide (x ∈ l)) as [Hin|Hnin].
    + rewrite bool_decide_eq_true_2 in IH by exact Hin.
      rewrite bool_decide_eq_true_2 by (by right).
      destruct IH as (l1 & l2 & -> & Hl1 & ->).
      exists (y :: l1), l2. split; [reflexivity|]. split; [|reflexivity].
      rewrite not_elem_of_cons. split; [congruence | exact Hl1].
    + rewrite bool_decide_eq_false_2 in IH by exact Hnin.
      rewrite bool_decide_eq_false_2.
      * by rewrite IH.
      * rewrite elem_of_cons. intros [?|?]; [congruence | contradiction].
Qed.

(** X15.  [remove_pokemon], given a name that is in the target list,
    takes out its first occurrence and nothing else, later duplicates
    included; given a name that is not in the list it leaves the list as
    it is and says so.  Either way the entry is cleared and the list is
    saved. *)
Theorem remove_pokemon_takes_the_first_occurrence
    (self : Panel.BotGUI)
    (Hname : strip (Panel.new_pokemon_entry self) ≠ "") :
  let name := strip (Panel.new_pokemon_entry self) in
  let r := Panel.remove_pokemon self in
  (if bool_decide (name ∈ targets_of self)
   then (∃ l1 l2, targets_of self = l1 ++ name :: l2 ∧ (name ∉ l1) ∧
                  targets_of r.1 = l1 ++ l2) ∧
        r.2 = [Panel.put (Panel.Note_removed name);
               Panel.saved (Mac.gui.config_data (Panel.base r.1))]
   else targets_of r.1 = targets_of self ∧
        r.2 = [Panel.put (Panel.Note_not_in_list name);
               Panel.saved (Mac.gui.config_data (Panel.base r.1))]) ∧
  Panel.new_pokemon_entry r.1 = "" ∧
  Mac.gui.config_data (Panel.base r.1) !! "target_pokemons"
    = Some (Panel.targets_json (targets_of r.1)).
Proof.
  cbn zeta. unfold Panel.remove_pokemon.
  rewrite (bool_decide_eq_false_2 _ Hname).
  cbn [fst snd]. unfold targets_of. cbn [Panel.base Panel.clear_entry
    Panel.set_targets Mac.gui.target_pokemons Mac.gui.config_data
    Panel.new_pokemon_entry].
  split; [|split; [reflexivity | by rewrite lookup_insert_eq]].
  pose proof (remove_first_spec (strip (Panel.new_pokemon_entry self))
                (Mac.gui.target_pokemons (Panel.base self))) as Hspec.
  destruct (bool_decide _); [|by split].
  split; [|reflexivity].
  destruct Hspec as (l1 & l2 & Heq & Hl1 & Hrem). exists l1, l2. by rewrite Hrem.
Qed.

Lemma remove_pokemon_takes_the_first_occurrence_witness :
  let self := sample_panel " Garchomp " ["Electivire"; "Garchomp"; "Dustox"; "Garchomp"] in
  strip (Panel.new_pokemon_entry self) ≠ "" ∧
  targets_of (Panel.remove_pokemon self).1 = ["Electivire"; "Dustox"; "Garchomp"].
Proof.
  intros self.
  assert (Hname : strip (Panel.new_pokemon_entry self) ≠ "") by discriminate.
  split; [exact Hname|].
  pose proof (remove_pokemon_takes_the_first_occurrence self Hname) as [_ _].
  reflexivity.
Defined.

(** X16.  Adding a name that is not yet in the list and then removing
    the same text gives back the target list as it was. *)
Theorem add_then_remove_restores_the_list
    (self : Panel.BotGUI) (text : string)
    (Hname : strip text ≠ "")
    (Hnew : strip text ∉ targets_of self) :
  targets_of (Panel.remove_pokemon
                (typed (Panel.add_pokemon (typed self text)).1 text)).1
  = targets_of self.
Proof.
  unfold Panel.add_pokemon. cbn [typed Panel.new_pokemon_entry Panel.base].
  rewrite (bool_decide_eq_false_2 _ Hname). cbn [fst].
  unfold Panel.remove_pokemon. cbn [typed Panel.new_pokemon_entry Panel.base
    Panel.clear_entry Panel.set_targets Mac.gui.target_pokemons].
  rewrite (bool_decide_eq_false_2 _ Hname). cbn [fst].
  unfold targets_of in *. cbn [Panel.base Panel.clear_entry Panel.set_targets
    Mac.gui.target_pokemons].
  rewrite bool_decide_eq_true_2
    by (rewrite elem_of_app, list_elem_of_singleton; by right).
  generalize dependent (Mac.gui.target_pokemons (Panel.base self)).
  induction l as [|y l IH]; intros Hnew; cbn [app Panel.remove_first].
  - by rewrite bool_decide_eq_true_2.
  - apply not_elem_of_cons in Hnew as [Hy Hl].
    rewrite bool_decide_eq_false_2 by congruence. f_equal. by apply IH.
Qed.

Lemma add_then_remove_restores_the_list_witness :
  let self := sample_panel "" ["Electivire"; "Dustox"] in
  strip " Garchomp" ≠ "" ∧ (strip " Garchomp" ∉ targets_of self) ∧
  targets_of (Panel.remove_pokemon
                (typed (Panel.add_pokemon (typed self " Garchomp")).1 " Garchomp")).1
  = ["Electivire"; "Dustox"].
Proof.
  intros self.
  assert (Hname : strip " Garchomp" ≠ "") by discriminate.
  assert (Hnew : strip " Garchomp" ∉ targets_of self).
  { vm_compute. intros Hin. repeat (apply elem_of_cons in Hin as [Hin|Hin];
      [discriminate Hin|]). by apply elem_of_nil in Hin. }
  split; [exact Hname|]. split; [exact Hnew|].
  exact (add_then_remove_restores_the_list self " Garchomp" Hname Hnew).
Defined.

Example duplicate_add_then_remove_reorders :
  let self := sample_panel "" ["Garchomp"; "Dustox"] in
  targets_of (Panel.remove_pokemon
                (typed (Panel.add_pokemon (typed self "Garchomp")).1 "Garchomp")).1
  = ["Dustox"; "Garchomp"].
Proof. reflexivity. Qed.

(** ** Saved configuration *)

(** X17.  [_update_config_data] always records the target list and the
    chosen move.  It records the indicator region only when its four
    entries are integers, and the name region only when all eight
    entries are: one bad indicator entry keeps both regions as they
    were saved before, a bad name entry keeps only the name region.
    Other keys of the configuration are left alone. *)
Theorem update_config_data_keeps_unparsed_regions (self : Mac.gui.BotGUI) (k : string) :
  let cfg := Mac.gui._update_config_data self in
  let pb := Mac.gui.int4 (Mac.gui.pb_x self) (Mac.gui.pb_y self)
                         (Mac.gui.pb_w self) (Mac.gui.pb_h self) in
  let nm := Mac.gui.int4 (Mac.gui.nm_x self) (Mac.gui.nm_y self)
                         (Mac.gui.nm_w self) (Mac.gui.nm_h self) in
  cfg !! "target_pokemons" = Some (JList (JStr <$> Mac.gui.target_pokemons self)) ∧
  cfg !! "preferred_move" = Some (JStr (Mac.gui.move_choice_var self)) ∧
  cfg !! "pokeball_region"
    = match pb with
      | Returned r => Some (Mac.gui.region_json r)
      | Raised _ => Mac.gui.config_data self !! "pokeball_region"
      end ∧
  cfg !! "name_region"
    = match pb, nm with
      | Returned _, Returned r => Some (Mac.gui.region_json r)
      | _, _ => Mac.gui.config_data self !! "name_region"
      end ∧
  (k ∈ ["target_pokemons"; "preferred_move"; "pokeball_region"; "name_region"] ∨
   cfg !! k = Mac.gui.config_data self !! k).
Proof.
  cbn zeta. unfold Mac.gui._update_config_data.
  destruct (Mac.gui.int4 (Mac.gui.pb_x self) _ _ _) as [pb|e];
    [destruct (Mac.gui.int4 (Mac.gui.nm_x self) _ _ _) as [nm|e]|];
    (split; [by rewrite lookup_insert_ne, lookup_insert_eq by done|]);
    (split; [by rewrite lookup_insert_eq|]);
    (split; [by rewrite ?lookup_insert_ne, ?lookup_insert_eq by done|]);
    (split; [by rewrite ?lookup_insert_ne, ?lookup_insert_eq by done|]);
    destruct (decide (k ∈ ["target_pokemons"; "preferred_move"; "pokeball_region";
                           "name_region"])) as [Hin|Hnin]; try (by left); right;
    rewrite !not_elem_of_cons in Hnin; destruct Hnin as (? & ? & ? & ? & _);
    by rewrite !lookup_insert_ne by done.
Qed.

Example bad_indicator_entry_blocks_both_regions :
  let self := Panel.set_pb zero_width_gui "12px" "330" "60" "20" in
  let cfg := Mac.gui._update_config_data self in
  cfg !! "pokeball_region" = builtin_defaults !! "pokeball_region" ∧
  cfg !! "name_region" = builtin_defaults !! "name_region" ∧
  Mac.gui.int4 (Mac.gui.nm_x self) (Mac.gui.nm_y self)
               (Mac.gui.nm_w self) (Mac.gui.nm_h self)
  = Returned (1224, 339, 145, 20).
Proof. vm_compute. auto. Qed.

Lemma setdefault_union (key : string) (value : json) (d : gmap string json) :
  Mac.setdefault key value d = d ∪ {[key := value]}.
Proof.
  unfold Mac.setdefault. apply map_eq. intros k.
  rewrite lookup_union.
  destruct (d !! key) as [v|] eqn:Hd.
  - destruct (decide (k = key)) as [->|Hne].
    + rewrite Hd, lookup_singleton_eq. reflexivity.
    + rewrite lookup_singleton_ne by done. by destruct (d !! k).
  - destruct (decide (k = key)) as [->|Hne].
    + rewrite lookup_insert_eq, Hd, lookup_singleton_eq. reflexivity.
    + rewrite lookup_insert_ne, lookup_singleton_ne by done. by destruct (d !! k).
Qed.

(** X18.  At start-up the loaded configuration is completed, not
    overwritten: every field the file holds keeps its value, whatever
    it is, and each of the four fields the file lacks gets its built-in
    default.  A file that is present but does not parse makes start-up
    raise. *)
Theorem defaults_fill_only_missing_fields (data : gmap string json) (k : string) :
  Mac.init_config_data (Mac.Present (Some data)) = Returned (data ∪ builtin_defaults) ∧
  (data ∪ builtin_defaults) !! k
    = match data !! k with
      | Some v => Some v
      | None => builtin_defaults !! k
      end ∧
  Mac.init_config_data (Mac.Present None) = Raised JSONDecodeError.
Proof.
  split; [|split; [|reflexivity]].
  - unfold Mac.init_config_data, Mac.load_config. f_equal.
    rewrite !setdefault_union. rewrite <- !(assoc_L (∪)). f_equal.
  - rewrite lookup_union. by destruct (data !! k), (builtin_defaults !! k).
Qed.

(** ** A name matches itself *)

Lemma index_b_snoc (b : list ascii) (x c : ascii) :
  difflib.index_b (b ++ [x]) !! c
  = if decide (c = x)
    then Some (default [] (difflib.index_b b !! c) ++ [Z.of_nat (length b)])
    else difflib.index_b b !! c.
Proof.
  unfold difflib.index_b. rewrite imap_app, foldl_app. cbn [imap foldl].
  rewrite Nat.add_0_r.
  case_decide as Hc.
  - subst. by rewrite lookup_insert_eq.
  - by rewrite lookup_insert_ne.
Qed.

Lemma index_b_range (b : list ascii) :
  ∀ c js, difflib.index_b b !! c = Some js →
          Forall (λ j, 0 <= j < Z.of_nat (length b)) js.
Proof.
  induction b as [|x b IH] using rev_ind; intros c js Hjs.
  { change (difflib.index_b []) with (∅ : gmap ascii (list Z)) in Hjs.
    by rewrite lookup_empty in Hjs. }
  rewrite index_b_snoc in Hjs. rewrite length_app. cbn [length].
  assert (Hweak : ∀ l, Forall (λ j, 0 <= j < Z.of_nat (length b)) l →
                       Forall (λ j, 0 <= j < Z.of_nat (length b + 1)) l).
  { intros l Hl. eapply Forall_impl; [exact Hl|]. intros j. simpl. lia. }
  case_decide.
  - injection Hjs as <-. apply Forall_app. split.
    + destruct (difflib.index_b b !! c) as [l|] eqn:E; [|constructor].
      apply Hweak. by eapply IH.
    + repeat constructor; lia.
  - apply Hweak. by eapply IH.
Qed.

(** The indices recorded for the element at position [i] are those
    before [i], then [i], then those after it. *)
Lemma index_b_row (b : list ascii) :
  ∀ (i : nat) (c : ascii), b !! i = Some c →
    ∃ l1 l2, difflib.index_b b !! c = Some (l1 ++ Z.of_nat i :: l2) ∧
             Forall (λ j, 0 <= j < Z.of_nat i) l1 ∧
             Forall (λ j, Z.of_nat i < j < Z.of_nat (length b)) l2.
Proof.
  induction b as [|x b IH] using rev_ind; intros i c Hi; [done|].
  rewrite index_b_snoc, length_app. cbn [length].
  destruct (decide (i < length b)%nat) as [Hlt|Hge].
  - rewrite lookup_app_l in Hi by exact Hlt.
    destruct (IH i c Hi) as (l1 & l2 & Hl & H1 & H2).
    case_decide.
    + rewrite Hl. exists l1, (l2 ++ [Z.of_nat (length b)]).
      split; [simpl; by rewrite <- app_assoc|]. split; [exact H1|].
      apply Forall_app. split; [|repeat constructor; lia].
      eapply Forall_impl; [exact H2|]. intros j. simpl. lia.
    + exists l1, l2. split; [exact Hl|]. split; [exact H1|].
      eapply Forall_impl; [exact H2|]. intros j. simpl. lia.
  - assert (Hlen : i = length b).
    { apply lookup_lt_Some in Hi. rewrite length_app in Hi. simpl in Hi. lia. }
    subst i. rewrite list_lookup_middle in Hi by reflexivity. injection Hi as <-.
    rewrite decide_True by reflexivity.
    exists (default [] (difflib.index_b b !! x)), [].
    split; [reflexivity|]. split; [|constructor].
    destruct (difflib.index_b b !! x) as [l|] eqn:E; [|constructor].
    by eapply index_b_range.
Qed.

Lemma scan_self_before (n i : Z) (j2len : gmap Z Z) (rest : list Z) :
  self_fit i j2len → i < n →
  ∀ (l1 : list Z) (new : gmap Z Z),
    Forall (λ j, 0 <= j < i) l1 → self_fit (i + 1) new →
    ∃ new', self_fit (i + 1) new' ∧
            difflib.scan_indices (l1 ++ rest) 0 n i j2len new (0, 0, i)
            = difflib.scan_indices rest 0 n i j2len new' (0, 0, i).
Proof.
  intros Hfit Hin. induction l1 as [|j l1 IH]; intros new Hl1 Hnew.
  { by exists new. }
  apply Forall_cons in Hl1 as [Hj Hl1].
  cbn [app difflib.scan_indices].
  replace (j <? 0) with false by (symmetry; apply Z.ltb_ge; lia).
  replace (n <=? j) with false by (symmetry; apply Z.leb_gt; lia).
  assert (Hk : 1 <= default 0 (j2len !! (j - 1)) + 1 <= i ∧
               default 0 (j2len !! (j - 1)) + 1 <= j + 1).
  { destruct (j2len !! (j - 1)) as [v|] eqn:E; simpl; [|lia].
    apply Hfit in E. lia. }
  cbn [snd].
  replace (i <? default 0 (j2len !! (j - 1)) + 1) with false
    by (symmetry; apply Z.ltb_ge; lia).
  apply IH; [exact Hl1|].
  intros j' v. rewrite lookup_insert. case_decide; [intros [= <-]; lia | apply Hnew].
Qed.

Lemma scan_self_after (n i : Z) (j2len : gmap Z Z) :
  self_fit i j2len → 0 <= i →
  ∀ (l2 : list Z) (new : gmap Z Z),
    Forall (λ j, i < j < n) l2 → self_fit (i + 1) new → new !! i = Some (i + 1) →
    ∃ new', self_fit (i + 1) new' ∧ new' !! i = Some (i + 1) ∧
            difflib.scan_indices l2 0 n i j2len new (0, 0, i + 1)
            = (new', (0, 0, i + 1)).
Proof.
  intros Hfit Hi. induction l2 as [|j l2 IH]; intros new Hl2 Hnew Hdiag.
  { by exists new. }
  apply Forall_cons in Hl2 as [Hj Hl2].
  cbn [difflib.scan_indices].
  replace (j <? 0) with false by (symmetry; apply Z.ltb_ge; lia).
  replace (n <=? j) with false by (symmetry; apply Z.leb_gt; lia).
  assert (Hk : 1 <= default 0 (j2len !! (j - 1)) + 1 <= i + 1 ∧
               default 0 (j2len !! (j - 1)) + 1 <= j + 1).
  { destruct (j2len !! (j - 1)) as [v|] eqn:E; simpl; [|lia].
    apply Hfit in E. lia. }
  cbn [snd].
  replace (i + 1 <? default 0 (j2len !! (j - 1)) + 1) with false
    by (symmetry; apply Z.ltb_ge; lia).
  apply IH; [exact Hl2 | |].
  - intros j' v. rewrite lookup_insert. case_decide; [intros [= <-]; lia | apply Hnew].
  - rewrite lookup_insert_ne by lia. exact Hdiag.
Qed.

Lemma scan_self_row (a : list ascii) (i : Z) (acc : gmap Z Z * difflib.Match) :
  0 <= i < Z.of_nat (length a) → self_scanned i acc →
  self_scanned (i + 1)
    (difflib.scan_row a (difflib.index_b a) 0 (Z.of_nat (length a)) acc i).
Proof.
  intros Hi (Hbest & Hfit & Hdiag). unfold difflib.scan_row.
  destruct (a !! Z.to_nat i) as [c|] eqn:Hc.
  2:{ apply lookup_ge_None in Hc. lia. }
  destruct (index_b_row a (Z.to_nat i) c Hc) as (l1 & l2 & -> & H1 & H2).
  rewrite Z2Nat.id in * by lia. cbn [default from_option id]. rewrite Hbest.
  destruct (scan_self_before (Z.of_nat (length a)) i acc.1 (i :: l2) Hfit
              ltac:(lia) l1 ∅ H1) as (new & Hnew & ->).
  { intros j v. by rewrite lookup_empty. }
  cbn [difflib.scan_indices].
  replace (i <? 0) with false by (symmetry; apply Z.ltb_ge; lia).
  replace (Z.of_nat (length a) <=? i) with false by (symmetry; apply Z.leb_gt; lia).
  assert (Hk : default 0 (acc.1 !! (i - 1)) + 1 = i + 1).
  { destruct Hdiag as [-> | ->]; [|reflexivity].
    destruct (acc.1 !! (0 - 1)) as [v|] eqn:E; [|reflexivity].
    apply Hfit in E. lia. }
  rewrite Hk. cbn [snd].
  replace (i <? i + 1) with true by (symmetry; apply Z.ltb_lt; lia).
  replace (i - (i + 1) + 1) with 0 by lia.
  destruct (scan_self_after (Z.of_nat (length a)) i acc.1 Hfit ltac:(lia) l2
              (<[i := i + 1]> new) H2) as (new' & Hnew' & Hd' & ->).
  - intros j' v. rewrite lookup_insert. case_decide; [intros [= <-]; lia | apply Hnew].
  - by rewrite lookup_insert_eq.
  - split; [reflexivity|]. split; [exact Hnew'|]. right.
    cbn [fst]. by replace (i + 1 - 1) with i by lia.
Qed.

Lemma scan_self_rows (a : list ascii) (cnt : nat) :
  ∀ (i : Z) (acc : gmap Z Z * difflib.Match),
    0 <= i → i + Z.of_nat cnt <= Z.of_nat (length a) → self_scanned i acc →
    self_scanned (i + Z.of_nat cnt)
      (foldl (difflib.scan_row a (difflib.index_b a) 0 (Z.of_nat (length a))) acc
             (seqZ i (Z.of_nat cnt))).
Proof.
  induction cnt as [|cnt IH]; intros i acc Hi Hle Hacc.
  { simpl. by rewrite Z.add_0_r. }
  rewrite seqZ_cons by lia. cbn [foldl].
  replace (Z.pred (Z.of_nat (S cnt))) with (Z.of_nat cnt) by lia.
  replace (i + Z.of_nat (S cnt)) with (Z.succ i + Z.of_nat cnt) by lia.
  apply IH; [lia | lia |].
  rewrite <- Z.add_1_r. apply scan_self_row; [lia | exact Hacc].
Qed.

Lemma extend_full (a b : list ascii) (side : ascii → bool) (n blo bhi j : Z) :
  difflib.extend a b side 0 n blo bhi (0, j, n) = (0, j, n).
Proof.
  unfold difflib.extend. cbn [fst snd].
  change (Z.to_nat (0 - 0)) with 0%nat. cbn [difflib.extend_left fst snd].
  replace (n - (0 + n)) with 0 by lia. reflexivity.
Qed.

(** Against itself a sequence has one longest block: the whole of it. *)
Lemma find_longest_match_self (a : list ascii) :
  difflib.find_longest_match a a (difflib.index_b a)
    0 (Z.of_nat (length a)) 0 (Z.of_nat (length a))
  = (0, 0, Z.of_nat (length a)).
Proof.
  unfold difflib.find_longest_match.
  pose proof (scan_self_rows a (length a) 0 (∅, (0, 0, 0))) as Hscan.
  rewrite Z.add_0_l, Z.sub_0_r in *.
  destruct Hscan as (-> & _); [lia | lia | |].
  { split; [reflexivity|]. split; [|by left]. intros j v. cbn [fst].
    by rewrite lookup_empty. }
  by rewrite !extend_full.
Qed.

Lemma chain_b_short (b : list ascii) :
  (length b < 200)%nat → difflib.chain_b b = difflib.index_b b.
Proof.
  intros Hlen. unfold difflib.chain_b.
  replace (200 <=? Z.of_nat (length b)) with false
    by (symmetry; apply Z.leb_gt; lia).
  reflexivity.
Qed.

Lemma get_matching_blocks_self (a : list ascii) :
  (0 < length a < 200)%nat →
  difflib.get_matching_blocks a a
  = [(0, 0, Z.of_nat (length a));
     (Z.of_nat (length a), Z.of_nat (length a), 0)].
Proof.
  intros [Hpos Hlen]. unfold difflib.get_matching_blocks.
  rewrite chain_b_short by exact Hlen.
  replace (2 * length a + 1)%nat with (S (2 * length a)) by lia.
  cbn [difflib.queue_loop]. rewrite find_longest_match_self.
  replace (Z.of_nat (length a) =? 0) with false by (symmetry; apply Z.eqb_neq; lia).
  rewrite Z.ltb_irrefl. cbn [andb].
  change (0 <? 0) with false. cbn [andb].
  assert (Hloop : difflib.queue_loop (2 * length a) a a (difflib.index_b a) []
                    ([] ++ [(0, 0, Z.of_nat (length a))])
                  = Some [(0, 0, Z.of_nat (length a))])
    by (by destruct (2 * length a)%nat).
  unfold difflib.Match in *. rewrite Hloop. cbn [default from_option id].
  unfold difflib.sort, difflib.collapse.
  cbn [foldr difflib.insert_sorted foldl difflib.collapse_step].
  change (0 + 0 =? 0) with true. cbn [andb]. rewrite Z.add_0_l.
  replace (Z.of_nat (length a) =? 0) with false by (symmetry; apply Z.eqb_neq; lia).
  reflexivity.
Qed.

Lemma ratio_self (s : string) :
  (length (chars s) < 200)%nat →
  Qle_bool default_threshold (difflib.ratio s s) = true.
Proof.
  intros Hlen. destruct (decide (chars s = [])) as [Hnil|Hne].
  { apply chars_nil_iff in Hnil. subst. reflexivity. }
  assert (Hpos : (0 < length (chars s))%nat)
    by (destruct (chars s); [done | simpl; lia]).
  unfold difflib.ratio. rewrite get_matching_blocks_self by lia.
  cbn [fmap list_fmap foldr snd]. unfold difflib.calculate_ratio.
  replace (Z.of_nat (length (chars s)) + Z.of_nat (length (chars s)) =? 0)
    with false by (symmetry; apply Z.eqb_neq; lia).
  unfold Qle_bool, default_threshold. cbn [Qnum Qden].
  apply Z.leb_le. rewrite Z2Pos.id by lia. lia.
Qed.

Lemma length_chars_lower (s : string) :
  length (chars (lower s)) = length (chars s).
Proof. unfold lower. by rewrite chars_of_list, length_fmap. Qed.

Lemma same_name_is_similar (name target : string) :
  lower name = lower target → (length (chars name) < 200)%nat →
  Mac._is_similar name target = true.
Proof.
  intros Heq Hlen. unfold Mac._is_similar, is_similar. rewrite <- Heq.
  apply ratio_self. by rewrite length_chars_lower.
Qed.

(** X19.  A recognised name that equals a target, letter case aside,
    always matches it (for names under 200 characters, the length from
    which the matcher starts to set frequent letters apart): its
    similarity ratio is 1, above the threshold. *)
Theorem a_name_matches_itself_whatever_the_case
    (name target : string) (targets : list string)
    (Hsame : lower name = lower target)
    (Hshort : (length (chars name) < 200)%nat)
    (Htarget : target ∈ targets) :
  Mac._is_similar name target = true ∧
  (difflib.ratio (lower name) (lower target) == 1)%Q ∧
  existsb (Mac._is_similar name) targets = true.
Proof.
  split; [by apply same_name_is_similar|]. split.
  - rewrite <- Hsame.
    destruct (decide (chars (lower name) = [])) as [Hnil|Hne].
    { apply chars_nil_iff in Hnil. rewrite Hnil. reflexivity. }
    assert (Hpos : (0 < length (chars (lower name)))%nat)
      by (destruct (chars (lower name)); [done | simpl; lia]).
    unfold difflib.ratio.
    rewrite get_matching_blocks_self by (rewrite length_chars_lower in *; lia).
    cbn [fmap list_fmap foldr snd]. unfold difflib.calculate_ratio.
    replace (Z.of_nat (length (chars (lower name)))
             + Z.of_nat (length (chars (lower name))) =? 0)
      with false by (symmetry; apply Z.eqb_neq; lia).
    unfold Qeq. cbn [Qnum Qden]. rewrite Z2Pos.id by lia. lia.
  - apply existsb_elem_of. exists target. split; [exact Htarget|].
    by apply same_name_is_similar.
Qed.

Lemma a_name_matches_itself_whatever_the_case_witness :
  lower "GARCHOMP" = lower "Garchomp" ∧
  (length (chars "GARCHOMP") < 200)%nat ∧
  ("Garchomp" ∈ ["Electivire"; "Garchomp"]) ∧
  existsb (Mac._is_similar "GARCHOMP") ["Electivire"; "Garchomp"] = true.
Proof.
  assert (H1 : lower "GARCHOMP" = lower "Garchomp") by reflexivity.
  assert (H2 : (length (chars "GARCHOMP") < 200)%nat) by (simpl; lia).
  assert (H3 : "Garchomp" ∈ ["Electivire"; "Garchomp"]) by set_solver.
  split; [exact H1|]. split; [exact H2|]. split; [exact H3|].
  exact (proj2 (proj2 (a_name_matches_itself_whatever_the_case
                         "GARCHOMP" "Garchomp" _ H1 H2 H3))).
Defined.

(** X20.  When the encounter check is positive and the name read
    equals a target, letter case aside, the pass counts the encounter,
    resets the watchdog to the encounter's clock reading, raises the
    target alert and breaks: it presses no move key, and the loop ends
    there with the closing log line, whatever passes would follow. *)
Theorem a_watched_name_stops_the_loop `{Recognizer}
    (self : Mac.BotThread) (st : Mac.locals) (env : Mac.tick_env)
    (rest : list Mac.tick_env) (name target : string)
    (Hstop : Mac.stop_is_set env = false)
    (Hpause : Mac.pause_is_set env = false)
    (Hactive : Mac.is_reddish_in_region (Mac.window_at_check env)
                 (Mac.pokeball_region self) Mac.default_lower_thresh
                 Mac.default_upper_thresh = Returned true)
    (Hname : Mac.get_pokemon_name (Mac.window_at_name env) (Mac.name_region self)
             = Returned name)
    (Htarget : target ∈ Mac.target_pokemons self)
    (Hsame : lower name = lower target)
    (Hshort : (length (chars name) < 200)%nat) :
  let t := Mac.clock_at_encounter env in
  Mac.run_ticks self st (env :: rest)
  = (Mac.Alerted, counted (stepped st) t,
     movement st
       ++ [reddish_checked true; time_time At_encounter t;
           log_put (Msg_encountered (Mac.encounter_count st + 1));
           log_put (Msg_name name);
           afplay; log_put (Msg_target_stopping name);
           log_put Msg_thread_stopping]) ∧
  tally is_combat_press (Mac.run_ticks self st (env :: rest)).2 = 0%nat.
Proof.
  cbn zeta.
  assert (Hrun : Mac.run_ticks self st (env :: rest)
    = (Mac.Alerted, counted (stepped st) (Mac.clock_at_encounter env),
       movement st
         ++ [reddish_checked true; time_time At_encounter (Mac.clock_at_encounter env);
             log_put (Msg_encountered (Mac.encounter_count st + 1));
             log_put (Msg_name name);
             afplay; log_put (Msg_target_stopping name);
             log_put Msg_thread_stopping])).
  { cbn [Mac.run_ticks]. rewrite (tick_cases self st env Hstop Hpause). cbn zeta.
    unfold checked, named. rewrite Hactive, Hname.
    replace (existsb _ _) with true.
    - rewrite <- !app_assoc. reflexivity.
    - symmetry. apply existsb_elem_of. exists target. split; [exact Htarget|].
      by apply same_name_is_similar. }
  split; [exact Hrun|]. rewrite Hrun. cbn [snd]. unfold movement, tally.
  by destruct (Mac.last_dir st =? 0).
Qed.

Lemma a_watched_name_stops_the_loop_witness :
  let env := sample_pass false false true 10%Q in
  (Mac.run_ticks (H := reads "garchomp") sample_bot (Mac.initial 0)
     [env; sample_pass false false true 11%Q]).1.1 = Mac.Alerted.
Proof.
  intros env.
  rewrite (proj1 (a_watched_name_stops_the_loop (H := reads "garchomp") sample_bot
                    (Mac.initial 0) env [sample_pass false false true 11%Q]
                    "garchomp" "Garchomp"
                    eq_refl eq_refl eq_refl eq_refl ltac:(set_solver) eq_refl
                    ltac:(vm_compute; lia))).
  reflexivity.
Defined.

(** ** The Windows script *)


Example windows_script_needs_its_window :
  Plus.main (H := reads "Rattata") 0
    [{| Plus.window_at_check := [[(200, 50, 50)]];
        Plus.window_at_name := [[(0, 0, 0)]] |}]
  = Raised Exception.
Proof. reflexivity. Qed.
